(** * OTP: HMAC, HOTP and TOTP

    A shallow embedding of the two implementations of the repository,
    the Go package [otp] (functions [HMAC], [HOTP], [TOTP]) and the
    JavaScript file [otp.js] (functions [hmac], [hotp], [totp]), and the
    properties of their specification.

    Bytes and UTF-16 code units are integers ([Z]); Go slices and JavaScript
    strings and arrays are lists, and where a Go function writes into the
    array of an argument its slices are windows on a memory.  The clock read
    by [TOTP]/[totp] is an argument of the model. *)

From Stdlib Require Import Ascii String Numbers.DecimalString.
From Stdlib Require Import DecimalZ DecimalPos.
From Stdlib Require Import ZArith QArith Qround List Bool Lia.
Import ListNotations.
Open Scope Z_scope.

(** ** SHA-1

    Modelled from the spec: the hash engine (HashEngine of the specification:
    SHA-1, 20-byte digest, 64-byte block) is an external collaborator, Go's
    [crypto/sha1], and is absent from the sources.  It is written here after
    FIPS 180-4 so that the functions built on it can be evaluated. *)
Module SHA1.

Definition Size : nat := 20.
Definition BlockSize : nat := 64.

Definition mask32 : Z := 0xFFFFFFFF.

Definition add32 (a b : Z) : Z := Z.land (a + b) mask32.

Definition rotl (n x : Z) : Z :=
  Z.land (Z.lor (Z.shiftl x n) (Z.shiftr x (32 - n))) mask32.

Definition not32 (x : Z) : Z := Z.lxor x mask32.

(** Big-endian bytes of a 32-bit word and of a 64-bit length. *)
Definition be32 (w : Z) : list Z :=
  [ Z.land (Z.shiftr w 24) 255; Z.land (Z.shiftr w 16) 255;
    Z.land (Z.shiftr w 8) 255; Z.land w 255 ].

Definition be64 (n : Z) : list Z :=
  be32 (Z.shiftr n 32) ++ be32 (Z.land n mask32).

Definition word_of (b : list Z) : Z :=
  fold_left (fun acc x => Z.lor (Z.shiftl acc 8) (Z.land x 255)) b 0.

(** Message padding: a 1 bit, zeros up to 56 mod 64, the bit length. *)
Definition pad (m : list Z) : list Z :=
  let len := Z.of_nat (length m) in
  let zeros := Z.to_nat ((55 - len) mod 64) in
  m ++ [0x80] ++ repeat 0 zeros ++ be64 (8 * len).

Fixpoint chunks (size n : nat) (l : list Z) : list (list Z) :=
  match n with
  | O => []
  | S n' => firstn size l :: chunks size n' (skipn size l)
  end.

Definition words (block : list Z) : list Z :=
  map word_of (chunks 4 16 block).

(** Message schedule, most recent word first. *)
Fixpoint schedule (n : nat) (w : list Z) : list Z :=
  match n with
  | O => w
  | S n' =>
      let x := Z.lxor (Z.lxor (nth 2 w 0) (nth 7 w 0))
                      (Z.lxor (nth 13 w 0) (nth 15 w 0)) in
      schedule n' (rotl 1 x :: w)
  end.

Definition state : Type := (Z * Z * Z * Z * Z)%type.

Definition init : state :=
  (0x67452301, 0xEFCDAB89, 0x98BADCFE, 0x10325476, 0xC3D2E1F0).

Definition round (s : state) (tw : nat * Z) : state :=
  let '(a, b, c, d, e) := s in
  let '(t, w) := tw in
  let '(f, k) :=
    if (t <? 20)%nat then
      (Z.lor (Z.land b c) (Z.land (not32 b) d), 0x5A827999)
    else if (t <? 40)%nat then
      (Z.lxor (Z.lxor b c) d, 0x6ED9EBA1)
    else if (t <? 60)%nat then
      (Z.lor (Z.lor (Z.land b c) (Z.land b d)) (Z.land c d), 0x8F1BBCDC)
    else
      (Z.lxor (Z.lxor b c) d, 0xCA62C1D6) in
  let temp := add32 (add32 (add32 (add32 (rotl 5 a) f) e) k) w in
  (temp, a, rotl 30 b, c, d).

Definition compress (h : state) (block : list Z) : state :=
  let w := rev (schedule 64 (rev (words block))) in
  let '(a, b, c, d, e) := fold_left round (combine (seq 0 80) w) h in
  let '(h0, h1, h2, h3, h4) := h in
  (add32 h0 a, add32 h1 b, add32 h2 c, add32 h3 d, add32 h4 e).

Definition digest_bytes (h : state) : list Z :=
  let '(h0, h1, h2, h3, h4) := h in
  be32 h0 ++ be32 h1 ++ be32 h2 ++ be32 h3 ++ be32 h4.

(** [sha1.Sum]: the 20-byte digest of a byte sequence. *)
Definition Sum (data : list Z) : list Z :=
  let p := pad data in
  digest_bytes (fold_left compress (chunks 64 (length p / 64)%nat p) init).

End SHA1.

(** ** Shared text helpers *)

(** The characters of a literal, as byte or code-unit values. *)
Definition bytes_of_string (s : string) : list Z :=
  map (fun c => Z.of_nat (nat_of_ascii c)) (list_ascii_of_string s).

(** Decimal representation of an integer: Go's [strconv.FormatInt(t, 10)]
    and JavaScript's [toString()] on an integer below 10^21 in magnitude. *)
Definition decimal (z : Z) : list Z :=
  bytes_of_string (NilZero.string_of_int (Z.to_int z)).

(** ** The Go package *)
Module Go.

(** A Go computation either returns or panics at run time (index or
    slice bound out of range). *)
Inductive result (A : Type) : Type :=
| Ok (a : A)
| Panic.
Arguments Ok {A} a.
Arguments Panic {A}.

Definition bind {A B : Type} (r : result A) (k : A -> result B) : result B :=
  match r with
  | Ok a => k a
  | Panic => Panic
  end.

Notation "x <- r ;; k" := (bind r (fun x => k))
  (at level 61, r at next level, right associativity).

(** [s[i]] *)
Definition index (s : list Z) (i : nat) : result Z :=
  match nth_error s i with
  | Some b => Ok b
  | None => Panic
  end.

(** [s[0:n]] on a slice whose capacity is its length. *)
Definition slice_to (s : list Z) (n : Z) : result (list Z) :=
  if (0 <=? n) && (n <=? Z.of_nat (length s))
  then Ok (firstn (Z.to_nat n) s)
  else Panic.

Definition blocksize : nat := SHA1.BlockSize.

(** HMAC, lines 35-42: the key brought to [blocksize] bytes. *)
Definition normalize_key (key : list Z) : list Z :=
  if (length key <? blocksize)%nat then
    let pad := repeat 0 (blocksize - length key) in
    key ++ pad
  else if (blocksize <? length key)%nat then
    firstn blocksize key
  else key.

(** HMAC, lines 50-55: both pads grow by one byte per iteration. *)
Fixpoint pads (n : nat) : list Z * list Z :=
  match n with
  | O => ([], [])
  | S n' => let '(opad, ipad) := pads n' in (opad ++ [0x5C], ipad ++ [0x36])
  end.

(** HMAC, lines 62-67: the loop from index [i], [n] iterations left;
    returns [key_xor_opad] and [key_xor_ipad] from [i] on. *)
Fixpoint xor_loop (key opad ipad : list Z) (i n : nat)
  : result (list Z * list Z) :=
  match n with
  | O => Ok ([], [])
  | S n' =>
      k <- index key i ;;
      op <- index opad i ;;
      ip <- index ipad i ;;
      rest <- xor_loop key opad ipad (S i) n' ;;
      Ok (Z.lxor k op :: fst rest, Z.lxor k ip :: snd rest)
  end.

(** HMAC on the bytes of the key and the bytes of the message as line 74
    finds them; the memory that line 38 may write is in [GoCall]. *)
Definition HMAC (key message : list Z) : result (list Z) :=
  let key := normalize_key key in
  let '(opad, ipad) := pads blocksize in
  xors <- xor_loop key opad ipad 0 blocksize ;;
  let '(key_xor_opad, key_xor_ipad) := xors in
  let sum1 := SHA1.Sum (key_xor_ipad ++ message) in
  let sum2 := SHA1.Sum sum1 in
  Ok sum2.

(** The body of HOTP with its local [codeLen] as an argument. *)
Definition HOTP_with (codeLen : Z) (key counter : list Z)
  : result (list Z) :=
  hmac <- HMAC key counter ;;
  code <- slice_to hmac codeLen ;;
  Ok (map (fun b => b mod 10) code).

Definition codeLen : Z := 6.

Definition HOTP (key counter : list Z) : result (list Z) :=
  HOTP_with codeLen key counter.

(** TOTP, with the value of [time.Now().Unix()] as [now]; [/] on
    [int64] truncates toward zero. *)
Definition TOTP (now : Z) (key : list Z) : result (list Z) :=
  let t := Z.quot now 30 in
  let tstr := decimal t in
  HOTP key tstr.

End Go.

(** ** The JavaScript file *)
Module JS.

(** A string is the list of its UTF-16 code units. *)
Definition jsstring : Type := list Z.

(** A number is an integer or [NaN] ([None]). *)
Definition jsnum : Type := option Z.

(** What [sha1] is called with: a string the first time, the array of
    the inner bytes the second time. *)
Inductive jsarg : Type :=
| Str (s : jsstring)
| Arr (a : list jsnum).

Definition fromCharCode (n : Z) : Z := n mod 65536.

(** [s.charCodeAt(i)] under [^]: out of range it is [NaN], which [^]
    reads as 0. *)
Definition charCodeAt (s : jsstring) (i : nat) : Z := nth i s 0.

(** White space and line terminators skipped by [parseInt]. *)
Definition is_space (c : Z) : bool :=
  ((9 <=? c) && (c <=? 13)) || (c =? 32) || (c =? 160) || (c =? 0x1680)
  || ((0x2000 <=? c) && (c <=? 0x200A)) || (c =? 0x2028) || (c =? 0x2029)
  || (c =? 0x202F) || (c =? 0x205F) || (c =? 0x3000) || (c =? 0xFEFF).

Fixpoint skip_space (s : jsstring) : jsstring :=
  match s with
  | [] => []
  | c :: r => if is_space c then skip_space r else s
  end.

Definition hex_digit (c : Z) : option Z :=
  if (48 <=? c) && (c <=? 57) then Some (c - 48)
  else if (97 <=? c) && (c <=? 102) then Some (c - 87)
  else if (65 <=? c) && (c <=? 70) then Some (c - 55)
  else None.

(** The values of the longest prefix of hexadecimal digits. *)
Fixpoint hex_prefix (s : jsstring) : list Z :=
  match s with
  | [] => []
  | c :: r =>
      match hex_digit c with
      | Some d => d :: hex_prefix r
      | None => []
      end
  end.

(** [parseInt(s, 16)]: leading white space, a sign, an optional [0x],
    then the longest prefix of digits; [NaN] when that prefix is empty. *)
Definition parseInt16 (s : jsstring) : jsnum :=
  let s := skip_space s in
  let '(sign, s) :=
    match s with
    | c :: r => if c =? 45 then (-1, r) else if c =? 43 then (1, r) else (1, s)
    | [] => (1, s)
    end in
  let s :=
    match s with
    | c0 :: cx :: r =>
        if (c0 =? 48) && ((cx =? 120) || (cx =? 88)) then r else s
    | _ => s
    end in
  match hex_prefix s with
  | [] => None
  | ds => Some (sign * fold_left (fun acc d => 16 * acc + d) ds 0)
  end.

(** hmac, lines 50-55 and 58-64: two characters per iteration;
    [str[i+1]] past the end is [undefined], which [+] appends as text. *)
Fixpoint hex_bytes (str : jsstring) : list jsnum :=
  match str with
  | [] => []
  | [c] => [parseInt16 (c :: bytes_of_string "undefined")]
  | c1 :: c2 :: rest => parseInt16 [c1; c2] :: hex_bytes rest
  end.

(** hmac, lines 39-45, one of the two accumulated strings: the loop
    over [K_] from index [i]. *)
Fixpoint xor_loop (K_ pad : jsstring) (i : nat) : jsstring :=
  match K_ with
  | [] => []
  | k :: rest =>
      fromCharCode (Z.lxor k (charCodeAt pad i)) :: xor_loop rest pad (S i)
  end.

Definition blocksize : nat := 64.

(** hmac, lines 25-30: the value assigned to [K_]. *)
Definition normalize_key (key : jsstring) : jsstring :=
  if (length key <? blocksize)%nat then
    key ++ repeat (fromCharCode 0) (blocksize - length key)
  else if (blocksize <? length key)%nat then
    firstn blocksize key
  else key.

(** [a.slice(0, e)] *)
Definition slice0 {A : Type} (a : list A) (e : Z) : list A :=
  let len := Z.of_nat (length a) in
  let stop := if e <? 0 then Z.max (len + e) 0 else Z.min e len in
  firstn (Z.to_nat stop) a.

(** [a[i]] as an operand of [%]: [undefined] becomes [NaN]. *)
Definition elem (a : list jsnum) (i : nat) : jsnum :=
  match nth_error a i with
  | Some x => x
  | None => None
  end.

(** [x % m]: the sign follows the dividend. *)
Definition rem (x : jsnum) (m : Z) : jsnum :=
  option_map (fun v => Z.rem v m) x.

(** The text [+=] appends for a number. *)
Definition toString (x : jsnum) : jsstring :=
  match x with
  | Some v => decimal v
  | None => bytes_of_string "NaN"
  end.

Section WithSha1.

(** The global [sha1] of the page: it returns the digest as text. *)
Variable sha1 : jsarg -> jsstring.

Definition hmac (key message : jsstring) : list jsnum :=
  let K_ := normalize_key key in
  let opad := repeat (fromCharCode 0x5C) blocksize in
  let ipad := repeat (fromCharCode 0x36) blocksize in
  let K_xor_opad := xor_loop K_ opad 0 in
  let K_xor_ipad := xor_loop K_ ipad 0 in
  let innerStr := sha1 (Str (K_xor_ipad ++ message)) in
  let innerBytes := hex_bytes innerStr in
  let outerStr := sha1 (Arr innerBytes) in
  let outerBytes := hex_bytes outerStr in
  outerBytes.

(** The body of hotp with its local [codeLen] as an argument. *)
Definition hotp_with (codeLen : Z) (key counter : jsstring) : jsstring :=
  let h := hmac key counter in
  let htop_value := slice0 h codeLen in
  fold_left (fun code i => code ++ toString (rem (elem htop_value i) 10))
            (seq 0 (Z.to_nat codeLen)) [].

Definition codeLen : Z := 6.

Definition hotp (key counter : jsstring) : jsstring :=
  hotp_with codeLen key counter.

(** totp, with the value of [new Date().getTime()] (milliseconds) as
    [now]; the two divisions are exact, over the rationals. *)
Definition TC (now : Z) : Z :=
  Qfloor (inject_Z now / inject_Z 1000 / inject_Z 30)%Q.

Definition totp (now : Z) (key : jsstring) : jsstring :=
  hotp key (decimal (TC now)).

End WithSha1.

(** What the code expects of [sha1]: a digest of 20 bytes, written as 40
    hexadecimal digits. *)
Definition is_hex (c : Z) : bool :=
  match hex_digit c with Some _ => true | None => false end.

Definition hex_digest (s : jsstring) : bool :=
  (length s =? 40)%nat && forallb is_hex s.

Definition sha1_ok (sha1 : jsarg -> jsstring) : Prop :=
  forall v, hex_digest (sha1 v) = true.

(** Modelled from the spec: a [sha1] for evaluating the functions, the
    library being absent from the sources.  It hashes the code units of a
    string and the elements of an array as bytes, and prints the digest in
    lower-case hexadecimal. *)
Definition hex_char (d : Z) : Z := if d <? 10 then 48 + d else 87 + d.

Definition hex_string (bs : list Z) : jsstring :=
  flat_map (fun b => [hex_char (b / 16); hex_char (b mod 16)]) bs.

Definition arg_bytes (v : jsarg) : list Z :=
  match v with
  | Str s => map (fun c => c mod 256) s
  | Arr a => map (fun x => match x with Some b => b mod 256 | None => 0 end) a
  end.

Definition sha1_ref (v : jsarg) : jsstring :=
  hex_string (SHA1.Sum (arg_bytes v)).

End JS.

(** ** The constructions as the specification words them *)
Module Spec.

Definition opad (blocksize : nat) : list Z := repeat 0x5C blocksize.
Definition ipad (blocksize : nat) : list Z := repeat 0x36 blocksize.

(** Byte-wise XOR of two sequences. *)
Fixpoint xor (a b : list Z) : list Z :=
  match a, b with
  | x :: a', y :: b' => Z.lxor x y :: xor a' b'
  | _, _ => []
  end.

(** [Hash((K' XOR opad) || Hash((K' XOR ipad) || message))] *)
Definition two_pass (Hash : list Z -> list Z) (K' message : list Z)
  : list Z :=
  let inner := Hash (xor K' (ipad (length K')) ++ message) in
  Hash (xor K' (opad (length K')) ++ inner).

(** One decimal digit per byte, as a value and as a character. *)
Definition digit (b : Z) : Z := b mod 10.
Definition digit_char (b : Z) : Z := 48 + b mod 10.

Definition is_byte (b : Z) : Prop := 0 <= b < 256.
Definition is_code_unit (c : Z) : Prop := 0 <= c < 65536.

End Spec.

(** ** The Go slices that HMAC and HOTP share with their caller *)
Module GoSlice.

(** A slice as its holder sees it: the underlying array from the first
    element of the slice to its capacity, and the length. *)
Record slice : Type := { under : list Z; len : nat }.

Definition elems (s : slice) : list Z := firstn (len s) (under s).
Definition cap (s : slice) : nat := length (under s).
Definition well_formed (s : slice) : Prop := (len s <= cap s)%nat.

(** [append(s, xs...)]: the slice returned and the array under [s] after
    the call.  With room it writes behind the elements, in place; without
    room it fills a new array, whose spare capacity is left out. *)
Definition append (s : slice) (xs : list Z) : slice * list Z :=
  let n := (len s + length xs)%nat in
  if (n <=? cap s)%nat then
    let u := elems s ++ xs ++ skipn n (under s) in
    ({| under := u; len := n |}, u)
  else
    ({| under := elems s ++ xs; len := n |}, under s).

(** [s[:n]] *)
Definition reslice (s : slice) (n : nat) : Go.result slice :=
  if (n <=? cap s)%nat then Go.Ok {| under := under s; len := n |}
  else Go.Panic.

(** HMAC, lines 35-42, on the slice the caller passes: the local [key]
    afterwards, and the caller's array afterwards. *)
Definition HMAC_key (key : slice) : Go.result (slice * list Z) :=
  if (len key <? Go.blocksize)%nat then
    let pad := repeat 0 (Go.blocksize - len key) in
    Go.Ok (append key pad)
  else if (Go.blocksize <? len key)%nat then
    Go.bind (reslice key Go.blocksize) (fun k => Go.Ok (k, under key))
  else Go.Ok (key, under key).

(** [for i, b := range code { code[i] = b % 10 }] *)
Definition mod10_in_place (code : slice) : slice :=
  {| under := map (fun b => b mod 10) (elems code)
              ++ skipn (len code) (under code);
     len := len code |}.

(** HOTP, with the slice it returns: [hmac] is the whole array [sum2],
    and [code] shares it. *)
Definition HOTP (key counter : list Z) : Go.result slice :=
  Go.bind (Go.HMAC key counter) (fun tag =>
  let hmac := {| under := tag; len := length tag |} in
  Go.bind (reslice hmac (Z.to_nat Go.codeLen)) (fun code =>
  Go.Ok (mod10_in_place code))).

End GoSlice.

(** ** The global variables that otp.js assigns *)
Module JSGlobals.

(** [K_], [outerBytes] and [htop_value] are assigned without [var]: in a
    script that is not in strict mode they are variables of the global
    object, and outlive the call.  [None] is a variable not yet created. *)
Record globals : Type := {
  K_ : option JS.jsstring;
  outerBytes : option (list JS.jsnum);
  htop_value : option (list JS.jsnum)
}.

Section WithSha1.

Variable sha1 : JS.jsarg -> JS.jsstring.

(** hmac: the value returned and the globals after the call. *)
Definition hmac (key message : JS.jsstring) (g : globals)
  : list JS.jsnum * globals :=
  let K := JS.normalize_key key in
  let opad := repeat (JS.fromCharCode 0x5C) JS.blocksize in
  let ipad := repeat (JS.fromCharCode 0x36) JS.blocksize in
  let K_xor_opad := JS.xor_loop K opad 0 in
  let K_xor_ipad := JS.xor_loop K ipad 0 in
  let innerStr := sha1 (JS.Str (K_xor_ipad ++ message)) in
  let innerBytes := JS.hex_bytes innerStr in
  let outerStr := sha1 (JS.Arr innerBytes) in
  let outer := JS.hex_bytes outerStr in
  (outer,
   {| K_ := Some K; outerBytes := Some outer; htop_value := htop_value g |}).

Definition hotp (key counter : JS.jsstring) (g : globals)
  : JS.jsstring * globals :=
  let '(h, g1) := hmac key counter g in
  let codeLen := JS.codeLen in
  let htop := JS.slice0 h codeLen in
  let code :=
    fold_left
      (fun code i => code ++ JS.toString (JS.rem (JS.elem htop i) 10))
      (seq 0 (Z.to_nat codeLen)) [] in
  (code,
   {| K_ := K_ g1; outerBytes := outerBytes g1; htop_value := Some htop |}).

Definition totp (now : Z) (key : JS.jsstring) (g : globals)
  : JS.jsstring * globals :=
  hotp key (decimal (JS.TC now)) g.

End WithSha1.

End JSGlobals.

(** ** The Go functions on the caller's memory

    [Go.HMAC] and [Go.HOTP] above are functions of the bytes of the key and
    of the bytes of the message as line 74 finds them.  Line 38 can write
    into the array of the key, and the message may lie there: here the
    arguments are slices of one memory, and the memory is threaded. *)
Module GoCall.

Definition memory : Type := list Z.

(** A slice is a window on the memory: first address, length, capacity. *)
Record slice : Type := { ptr : nat; len : nat; cap : nat }.

Definition bytes (mem : memory) (s : slice) : list Z :=
  firstn (len s) (skipn (ptr s) mem).

Definition well_formed (mem : memory) (s : slice) : Prop :=
  (len s <= cap s)%nat /\ (ptr s + cap s <= length mem)%nat.

(** The memory with [xs] stored from address [a] on. *)
Definition write (mem : memory) (a : nat) (xs : list Z) : memory :=
  firstn a mem ++ xs ++ skipn (a + length xs) mem.

(** HMAC, lines 35-42: the bytes of the local [key] afterwards and the
    memory afterwards.  [append] writes the pad behind the key when the
    capacity has room for it, and into a new array otherwise. *)
Definition normalize (mem : memory) (key : slice) : list Z * memory :=
  if (len key <? Go.blocksize)%nat then
    let pad := repeat 0 (Go.blocksize - len key) in
    if (len key + length pad <=? cap key)%nat then
      let mem' := write mem (ptr key + len key) pad in
      (bytes mem' {| ptr := ptr key; len := len key + length pad;
                     cap := cap key |}, mem')
    else (bytes mem key ++ pad, mem)
  else if (Go.blocksize <? len key)%nat then
    (bytes mem {| ptr := ptr key; len := Go.blocksize; cap := cap key |}, mem)
  else (bytes mem key, mem).

(** HMAC: the tag and the memory afterwards. *)
Definition HMAC (mem : memory) (key message : slice)
  : Go.result (list Z * memory) :=
  let '(key', mem') := normalize mem key in
  let '(opad, ipad) := Go.pads Go.blocksize in
  Go.bind (Go.xor_loop key' opad ipad 0 Go.blocksize) (fun xors =>
  let '(key_xor_opad, key_xor_ipad) := xors in
  let sum1 := SHA1.Sum (key_xor_ipad ++ bytes mem' message) in
  let sum2 := SHA1.Sum sum1 in
  Go.Ok (sum2, mem')).

(** HOTP: the code and the memory afterwards. *)
Definition HOTP (mem : memory) (key counter : slice)
  : Go.result (list Z * memory) :=
  Go.bind (HMAC mem key counter) (fun r =>
  let '(hmac, mem') := r in
  Go.bind (Go.slice_to hmac Go.codeLen) (fun code =>
  Go.Ok (map (fun b => b mod 10) code, mem'))).

(** The message has no byte where line 38 writes: the key is not padded
    in place, or the message is empty, or it ends before the end of the key,
    or it starts at or after byte 64 of the key's array. *)
Definition clear_of_padding (key message : slice) : Prop :=
  (Go.blocksize <= len key)%nat \/ (cap key < Go.blocksize)%nat \/
  len message = 0%nat \/
  (ptr message + len message <= ptr key + len key)%nat \/
  (ptr key + Go.blocksize <= ptr message)%nat.

End GoCall.

Arguments SHA1.Sum : simpl never.

(** Settles the comparisons of the goal that the context decides. *)
Ltac decide_cmp :=
  repeat match goal with
    | |- context [?a =? ?b] =>
        first [ rewrite (proj2 (Z.eqb_neq a b)) by lia
              | rewrite (proj2 (Z.eqb_eq a b)) by lia ]
    | |- context [?a <=? ?b] =>
        first [ rewrite (proj2 (Z.leb_le a b)) by lia
              | rewrite (proj2 (Z.leb_gt a b)) by lia ]
    end.

(** ** SHA-1: test vectors and the shape of a digest *)

Example sha1_empty :
  SHA1.Sum [] =
  [0xda; 0x39; 0xa3; 0xee; 0x5e; 0x6b; 0x4b; 0x0d; 0x32; 0x55;
   0xbf; 0xef; 0x95; 0x60; 0x18; 0x90; 0xaf; 0xd8; 0x07; 0x09].
Proof. vm_compute. reflexivity. Qed.

Example sha1_abc :
  SHA1.Sum (bytes_of_string "abc") =
  [0xa9; 0x99; 0x3e; 0x36; 0x47; 0x06; 0x81; 0x6a; 0xba; 0x3e;
   0x25; 0x71; 0x78; 0x50; 0xc2; 0x6c; 0x9c; 0xd0; 0xd8; 0x9d].
Proof. vm_compute. reflexivity. Qed.

Example sha1_two_blocks :
  SHA1.Sum (bytes_of_string
    "abcdbcdecdefdefgefghfghighijhijkijkljklmklmnlmnomnopnopq") =
  [0x84; 0x98; 0x3e; 0x44; 0x1c; 0x3b; 0xd2; 0x6e; 0xba; 0xae;
   0x4a; 0xa1; 0xf9; 0x51; 0x29; 0xe5; 0xe5; 0x46; 0x70; 0xf1].
Proof. vm_compute. reflexivity. Qed.

(** HMAC-SHA1 of the empty key and the empty message, the standard value. *)
Example two_pass_empty :
  Spec.two_pass SHA1.Sum (repeat 0 64) [] =
  [0xfb; 0xdb; 0x1d; 0x1b; 0x18; 0xaa; 0x6c; 0x08; 0x32; 0x4b;
   0x7d; 0x64; 0xb7; 0x1f; 0xb7; 0x63; 0x70; 0x69; 0x0e; 0x1d].
Proof. vm_compute. reflexivity. Qed.

Lemma land_255_byte (x : Z) : Spec.is_byte (Z.land x 255).
Proof.
  unfold Spec.is_byte. change 255 with (Z.ones 8).
  rewrite Z.land_ones by lia. apply Z.mod_pos_bound. reflexivity.
Qed.

Lemma be32_bytes (w : Z) : Forall Spec.is_byte (SHA1.be32 w).
Proof. unfold SHA1.be32. repeat constructor; apply land_255_byte. Qed.

Lemma Sum_length (data : list Z) : length (SHA1.Sum data) = SHA1.Size.
Proof.
  unfold SHA1.Sum, SHA1.digest_bytes.
  destruct (fold_left _ _ _) as [[[[h0 h1] h2] h3] h4]. reflexivity.
Qed.

Lemma Sum_bytes (data : list Z) : Forall Spec.is_byte (SHA1.Sum data).
Proof.
  unfold SHA1.Sum, SHA1.digest_bytes.
  destruct (fold_left _ _ _) as [[[[h0 h1] h2] h3] h4].
  repeat (apply Forall_app; split); apply be32_bytes.
Qed.

(** ** The Go package: key normalisation and HMAC *)
Section GoFacts.

Import Go.

Lemma Go_normalize_key_length (key : list Z) :
  length (normalize_key key) = blocksize.
Proof.
  unfold normalize_key.
  destruct (Nat.ltb_spec (length key) blocksize) as [Hlt | Hge].
  - rewrite length_app, repeat_length. lia.
  - destruct (Nat.ltb_spec blocksize (length key)) as [Hgt | Hle].
    + apply firstn_length_le. lia.
    + lia.
Qed.

Lemma Go_pads_repeat (n : nat) : pads n = (Spec.opad n, Spec.ipad n).
Proof.
  unfold Spec.opad, Spec.ipad.
  induction n as [| n IH]; [reflexivity |].
  cbn [pads]. rewrite IH. now rewrite <- !repeat_cons.
Qed.

Lemma nth_error_skipn_cons {A : Type} (l : list A) :
  forall i, (i < length l)%nat ->
  exists x, nth_error l i = Some x /\ skipn i l = x :: skipn (S i) l.
Proof.
  induction l as [| a l IH]; intros i Hi; cbn in Hi; [lia |].
  destruct i as [| i].
  - exists a. split; reflexivity.
  - destruct (IH i) as [x [Hx Hs]]; [lia |].
    exists x. split; [exact Hx | exact Hs].
Qed.

(** The loop never indexes out of range and computes the two XORs. *)
Lemma Go_xor_loop_ok (key opad ipad : list Z) :
  forall n i,
    length key = (i + n)%nat ->
    length opad = (i + n)%nat ->
    length ipad = (i + n)%nat ->
    xor_loop key opad ipad i n =
    Ok (Spec.xor (skipn i key) (skipn i opad),
        Spec.xor (skipn i key) (skipn i ipad)).
Proof.
  induction n as [| n IH]; intros i Hk Ho Hi.
  - cbn [xor_loop]. rewrite (skipn_all2 key) by lia. reflexivity.
  - destruct (nth_error_skipn_cons key i) as [k [Ek Sk]]; [lia |].
    destruct (nth_error_skipn_cons opad i) as [op [Eo So]]; [lia |].
    destruct (nth_error_skipn_cons ipad i) as [ip [Ei Si]]; [lia |].
    cbn [xor_loop]. unfold index. rewrite Ek, Eo, Ei. cbn [bind].
    rewrite (IH (S i)) by lia. cbn [bind fst snd].
    rewrite Sk, So, Si. reflexivity.
Qed.

(** HMAC always returns, and returns the hash of the inner digest. *)
Lemma Go_HMAC_eq (key message : list Z) :
  HMAC key message =
  Ok (SHA1.Sum (SHA1.Sum
        (Spec.xor (normalize_key key) (Spec.ipad blocksize) ++ message))).
Proof.
  unfold HMAC. rewrite Go_pads_repeat.
  rewrite Go_xor_loop_ok;
    [ | rewrite Go_normalize_key_length; reflexivity
      | apply repeat_length | apply repeat_length ].
  reflexivity.
Qed.

Lemma Go_HOTP_eq (key counter : list Z) :
  HOTP key counter =
  Ok (map Spec.digit
        (firstn 6 (SHA1.Sum (SHA1.Sum
           (Spec.xor (normalize_key key) (Spec.ipad blocksize)
            ++ counter))))).
Proof.
  unfold HOTP, HOTP_with. rewrite Go_HMAC_eq. cbn [bind].
  unfold slice_to. rewrite Sum_length. reflexivity.
Qed.

End GoFacts.

(** ** The JavaScript file: reading a digest back into bytes *)

Section JSParsing.

Import JS.

Lemma hex_digit_range (c d : Z) :
  hex_digit c = Some d ->
  0 <= d < 16 /\
  (48 <= c <= 57 \/ 97 <= c <= 102 \/ 65 <= c <= 70).
Proof.
  unfold hex_digit.
  destruct (Z.leb_spec 48 c); destruct (Z.leb_spec c 57); cbn [andb];
    try (intros [= <-]; lia);
    destruct (Z.leb_spec 97 c); destruct (Z.leb_spec c 102); cbn [andb];
    try (intros [= <-]; lia);
    destruct (Z.leb_spec 65 c); destruct (Z.leb_spec c 70); cbn [andb];
    try (intros [= <-]; lia); discriminate.
Qed.

Lemma is_hex_digit (c : Z) :
  is_hex c = true -> exists d, hex_digit c = Some d.
Proof.
  unfold is_hex. destruct (hex_digit c) as [d |]; [eauto | discriminate].
Qed.

(** Two hexadecimal digits parse to the byte they write. *)
Lemma parseInt16_pair (c1 c2 d1 d2 : Z) :
  hex_digit c1 = Some d1 ->
  hex_digit c2 = Some d2 ->
  parseInt16 [c1; c2] = Some (16 * d1 + d2).
Proof.
  intros H1 H2.
  destruct (hex_digit_range _ _ H1) as [R1 C1].
  destruct (hex_digit_range _ _ H2) as [R2 C2].
  unfold parseInt16.
  assert (Hsp : is_space c1 = false).
  { unfold is_space. decide_cmp. reflexivity. }
  cbn [skip_space]. rewrite Hsp.
  replace (c1 =? 45) with false by (symmetry; apply Z.eqb_neq; lia).
  replace (c1 =? 43) with false by (symmetry; apply Z.eqb_neq; lia).
  replace (c2 =? 120) with false by (symmetry; apply Z.eqb_neq; lia).
  replace (c2 =? 88) with false by (symmetry; apply Z.eqb_neq; lia).
  rewrite andb_false_r.
  cbn [hex_prefix]. rewrite H1, H2. cbn [fold_left].
  f_equal. lia.
Qed.

(** A string of [2 * n] hexadecimal digits reads back as [n] bytes. *)
Lemma hex_bytes_ok :
  forall (n : nat) (s : jsstring),
    length s = (2 * n)%nat ->
    forallb is_hex s = true ->
    exists bs, hex_bytes s = map Some bs /\ length bs = n /\
               Forall Spec.is_byte bs.
Proof.
  induction n as [| n IH]; intros s Hlen Hhex.
  - destruct s; [| discriminate]. exists []. repeat split. constructor.
  - destruct s as [| c1 [| c2 rest]]; cbn in Hlen; try lia.
    cbn [forallb] in Hhex.
    apply andb_true_iff in Hhex as [Hc1 Hhex].
    apply andb_true_iff in Hhex as [Hc2 Hrest].
    destruct (is_hex_digit _ Hc1) as [d1 Hd1].
    destruct (is_hex_digit _ Hc2) as [d2 Hd2].
    destruct (IH rest) as [bs [Hbs [Hn Hall]]]; [lia | exact Hrest |].
    exists ((16 * d1 + d2) :: bs).
    cbn [hex_bytes map]. rewrite (parseInt16_pair _ _ _ _ Hd1 Hd2), Hbs.
    repeat split; [cbn; lia |].
    constructor; [| exact Hall].
    destruct (hex_digit_range _ _ Hd1) as [R1 _].
    destruct (hex_digit_range _ _ Hd2) as [R2 _].
    unfold Spec.is_byte. lia.
Qed.

Lemma hex_digest_bytes (s : jsstring) :
  hex_digest s = true ->
  exists bs, hex_bytes s = map Some bs /\ length bs = 20%nat /\
             Forall Spec.is_byte bs.
Proof.
  unfold hex_digest. intros H.
  apply andb_true_iff in H as [Hlen Hhex].
  apply Nat.eqb_eq in Hlen.
  apply (hex_bytes_ok 20); [rewrite Hlen; reflexivity | exact Hhex].
Qed.

End JSParsing.

(** ** The JavaScript file: key normalisation, hmac and hotp *)
Section JSFacts.

Import JS.

Lemma JS_normalize_key_length (key : jsstring) :
  length (normalize_key key) = blocksize.
Proof.
  unfold normalize_key.
  destruct (Nat.ltb_spec (length key) blocksize) as [Hlt | Hge].
  - rewrite length_app, repeat_length. lia.
  - destruct (Nat.ltb_spec blocksize (length key)) as [Hgt | Hle].
    + apply firstn_length_le. lia.
    + lia.
Qed.

Lemma JS_normalize_key_units (key : jsstring) :
  Forall Spec.is_code_unit key ->
  Forall Spec.is_code_unit (normalize_key key).
Proof.
  intros Hkey. unfold normalize_key.
  destruct (length key <? blocksize)%nat.
  - apply Forall_app. split; [exact Hkey |].
    apply Forall_forall. intros x Hx. apply repeat_spec in Hx. subst x.
    unfold Spec.is_code_unit. cbn. lia.
  - destruct (blocksize <? length key)%nat; [| exact Hkey].
    rewrite <- (firstn_skipn blocksize key) in Hkey.
    apply Forall_app in Hkey. apply Hkey.
Qed.

Lemma lxor_code_unit (a b : Z) :
  Spec.is_code_unit a -> Spec.is_code_unit b ->
  Spec.is_code_unit (Z.lxor a b).
Proof.
  unfold Spec.is_code_unit. intros Ha Hb.
  assert (Hnn : 0 <= Z.lxor a b) by (apply Z.lxor_nonneg; lia).
  split; [exact Hnn |].
  destruct (Z.eq_dec (Z.lxor a b) 0) as [-> | Hne]; [lia |].
  change 65536 with (2 ^ 16).
  apply Z.log2_lt_pow2; [lia |].
  assert (Hla : Z.log2 a < 16).
  { destruct (Z.eq_dec a 0) as [-> | Hz]; [cbn; lia |].
    apply Z.log2_lt_pow2; lia. }
  assert (Hlb : Z.log2 b < 16).
  { destruct (Z.eq_dec b 0) as [-> | Hz]; [cbn; lia |].
    apply Z.log2_lt_pow2; lia. }
  pose proof (Z.log2_lxor a b ltac:(lia) ltac:(lia)). lia.
Qed.

(** On a string, each accumulated string of the loop is the byte-wise
    XOR with the pad. *)
Lemma JS_xor_loop_eq (p : Z) (Hp : Spec.is_code_unit p) (n : nat) :
  forall (K_ : jsstring) (i : nat),
    Forall Spec.is_code_unit K_ ->
    (i + length K_ = n)%nat ->
    xor_loop K_ (repeat p n) i = Spec.xor K_ (skipn i (repeat p n)).
Proof.
  induction K_ as [| k rest IH]; intros i Hall Hlen; [reflexivity |].
  cbn [length] in Hlen. inversion Hall as [| ? ? Hk Hrest]; subst.
  destruct (nth_error_skipn_cons (repeat p (i + S (length rest))) i)
    as [x [Ex Sx]]; [rewrite repeat_length; lia |].
  assert (x = p) by (apply nth_error_In in Ex; now apply repeat_spec in Ex).
  subst x.
  cbn [xor_loop]. rewrite Sx. cbn [Spec.xor].
  unfold charCodeAt. rewrite (nth_error_nth _ _ 0 Ex).
  rewrite IH by (auto; lia).
  f_equal. unfold fromCharCode. apply Z.mod_small.
  apply (lxor_code_unit k p Hk Hp).
Qed.

Variable sha1 : jsarg -> jsstring.

(** hmac is a hash of the inner bytes alone. *)
Lemma JS_hmac_eq (key message : jsstring) :
  Forall Spec.is_code_unit key ->
  hmac sha1 key message =
  hex_bytes (sha1 (Arr (hex_bytes (sha1 (Str
    (Spec.xor (normalize_key key) (Spec.ipad blocksize) ++ message)))))).
Proof.
  intros Hkey. unfold hmac.
  change (repeat (fromCharCode 54) blocksize) with (repeat 54 blocksize).
  rewrite JS_xor_loop_eq;
    [ reflexivity
    | unfold Spec.is_code_unit; lia
    | apply JS_normalize_key_units, Hkey
    | rewrite JS_normalize_key_length; reflexivity ].
Qed.

Hypothesis sha1_hex : sha1_ok sha1.

Lemma JS_hmac_bytes (key message : jsstring) :
  exists tag, hmac sha1 key message = map Some tag /\
              length tag = 20%nat /\ Forall Spec.is_byte tag.
Proof. unfold hmac. apply hex_digest_bytes, sha1_hex. Qed.

Lemma toString_digit (b : Z) :
  0 <= b -> toString (rem (Some b) 10) = [Spec.digit_char b].
Proof.
  intros Hb. unfold rem, option_map, toString, Spec.digit_char.
  rewrite Z.rem_mod_nonneg by lia.
  pose proof (Z.mod_pos_bound b 10 ltac:(lia)) as Hd.
  assert (E : b mod 10 = 0 \/ b mod 10 = 1 \/ b mod 10 = 2 \/ b mod 10 = 3 \/
              b mod 10 = 4 \/ b mod 10 = 5 \/ b mod 10 = 6 \/ b mod 10 = 7 \/
              b mod 10 = 8 \/ b mod 10 = 9) by lia.
  repeat (destruct E as [E | E]; [rewrite E; reflexivity |]).
  rewrite E; reflexivity.
Qed.

(** hotp writes one digit for each of the first six bytes of the tag. *)
Lemma JS_hotp_eq (key counter : jsstring) :
  exists tag, hmac sha1 key counter = map Some tag /\
              length tag = 20%nat /\ Forall Spec.is_byte tag /\
              hotp sha1 key counter = map Spec.digit_char (firstn 6 tag).
Proof.
  destruct (JS_hmac_bytes key counter) as [tag [Htag [Hlen Hall]]].
  exists tag. repeat split; try assumption.
  unfold hotp, hotp_with. rewrite Htag.
  assert (Hs : slice0 (A := jsnum) (map Some tag) codeLen =
               firstn 6 (map Some tag)).
  { unfold slice0. rewrite length_map, Hlen. reflexivity. }
  rewrite Hs. change (Z.to_nat codeLen) with 6%nat.
  do 6 (destruct tag as [| ? tag]; [discriminate Hlen |]).
  repeat match goal with
         | H : Forall _ (_ :: _) |- _ => inversion H; clear H; subst
         end.
  unfold elem. cbn [seq fold_left firstn map nth_error app].
  rewrite !toString_digit by (unfold Spec.is_byte in *; lia).
  reflexivity.
Qed.

End JSFacts.

Lemma sha1_ref_ok : JS.sha1_ok JS.sha1_ref.
Proof.
  intros v. unfold JS.sha1_ref.
  pose proof (Sum_length (JS.arg_bytes v)) as Hlen.
  pose proof (Sum_bytes (JS.arg_bytes v)) as Hall.
  revert Hlen Hall. generalize (SHA1.Sum (JS.arg_bytes v)) as bs.
  intros bs Hlen Hall. unfold JS.hex_digest. apply andb_true_iff. split.
  - apply Nat.eqb_eq. unfold JS.hex_string.
    clear Hall. revert Hlen. unfold SHA1.Size.
    do 20 (destruct bs as [| ? bs]; [discriminate |]).
    destruct bs; [reflexivity | discriminate].
  - unfold JS.hex_string. clear Hlen.
    induction Hall as [| b bs Hb _ IH]; [reflexivity |].
    cbn [flat_map app forallb]. rewrite IH.
    unfold Spec.is_byte in Hb.
    assert (H1 : 0 <= b / 16 < 16)
      by (split; [apply Z.div_pos; lia | apply Z.div_lt_upper_bound; lia]).
    assert (H2 : 0 <= b mod 16 < 16) by (apply Z.mod_pos_bound; lia).
    assert (Hc : forall d, 0 <= d < 16 -> JS.is_hex (JS.hex_char d) = true).
    { intros d Hd. unfold JS.is_hex, JS.hex_digit, JS.hex_char.
      destruct (Z.ltb_spec d 10); decide_cmp; reflexivity. }
    rewrite (Hc _ H1), (Hc _ H2). reflexivity.
Qed.

(** ** The counters of TOTP *)

(** The two exact divisions of totp and the floor amount to one integer
    division by 30000 milliseconds. *)
Lemma JS_TC_div (now : Z) : JS.TC now = now / 30000.
Proof.
  unfold JS.TC, Qfloor. cbn. now rewrite !Z.mul_1_r.
Qed.

(** On a reading that is not negative, truncation is the floor. *)
Lemma quot_floor (now : Z) : 0 <= now -> Z.quot now 30 = now / 30.
Proof. intros H. apply Z.quot_div_nonneg; lia. Qed.

Lemma firstn_app_exact {A : Type} (n : nat) (l1 l2 : list A) :
  length l1 = n -> firstn n (l1 ++ l2) = l1.
Proof.
  intros <-. rewrite firstn_app, firstn_all, Nat.sub_diag, firstn_O.
  apply app_nil_r.
Qed.

Lemma skipn_app_exact {A : Type} (n : nat) (l1 l2 : list A) :
  length l1 = n -> skipn n (l1 ++ l2) = l2.
Proof.
  intros <-. rewrite skipn_app, skipn_all, Nat.sub_diag. reflexivity.
Qed.

(** ** The Go package on the caller's memory *)
Section GoCallFacts.

Import GoCall.

Lemma bytes_length (mem : memory) (s : slice) :
  well_formed mem s -> length (bytes mem s) = len s.
Proof.
  intros [Hl Hc]. unfold bytes.
  apply firstn_length_le. rewrite length_skipn. lia.
Qed.

Lemma write_length (mem : memory) (a : nat) (xs : list Z) :
  (a + length xs <= length mem)%nat ->
  length (write mem a xs) = length mem.
Proof.
  intros H. unfold write.
  rewrite !length_app, length_skipn, firstn_length_le by lia. lia.
Qed.

(** A window that ends before the stored bytes is not changed. *)
Lemma bytes_write_before (mem : memory) (a : nat) (xs : list Z) (s : slice) :
  (a <= length mem)%nat -> (ptr s + len s <= a)%nat ->
  bytes (write mem a xs) s = bytes mem s.
Proof.
  intros Ha Hs. unfold bytes, write.
  rewrite skipn_app, firstn_length_le by lia.
  replace (ptr s - a)%nat with 0%nat by lia. cbn [skipn].
  rewrite firstn_app, skipn_firstn_comm.
  rewrite length_firstn, length_skipn.
  replace (len s - Nat.min (a - ptr s) (length mem - ptr s))%nat
    with 0%nat by lia.
  rewrite firstn_O, app_nil_r, firstn_firstn. f_equal. lia.
Qed.

(** A window that starts after the stored bytes is not changed. *)
Lemma bytes_write_after (mem : memory) (a : nat) (xs : list Z) (s : slice) :
  (a + length xs <= length mem)%nat -> (a + length xs <= ptr s)%nat ->
  bytes (write mem a xs) s = bytes mem s.
Proof.
  intros Ha Hs. unfold bytes, write. f_equal.
  rewrite app_assoc, skipn_app.
  rewrite (skipn_all2 (firstn a mem ++ xs))
    by (rewrite length_app, firstn_length_le by lia; lia).
  rewrite length_app, firstn_length_le by lia. cbn [app].
  rewrite skipn_skipn. f_equal. lia.
Qed.

(** The stored bytes are read back behind a window that ends where they
    start. *)
Lemma bytes_write_extend (mem : memory) (xs : list Z) (s : slice) :
  well_formed mem s ->
  bytes (write mem (ptr s + len s) xs)
        {| ptr := ptr s; len := len s + length xs; cap := cap s |} =
  bytes mem s ++ xs.
Proof.
  intros [Hl Hc]. unfold bytes, write. cbn [ptr len].
  rewrite skipn_app, firstn_length_le by lia.
  replace (ptr s - (ptr s + len s))%nat with 0%nat by lia. cbn [skipn].
  rewrite skipn_firstn_comm.
  replace (ptr s + len s - ptr s)%nat with (len s) by lia.
  rewrite app_assoc. apply firstn_app_exact.
  rewrite length_app, firstn_length_le by (rewrite length_skipn; lia).
  reflexivity.
Qed.

(** The local key of HMAC holds the normalised bytes of the key. *)
Lemma normalize_bytes (mem : memory) (key : slice) :
  well_formed mem key ->
  fst (normalize mem key) = Go.normalize_key (bytes mem key).
Proof.
  intros Hwf. pose proof (bytes_length mem key Hwf) as Hlen.
  destruct Hwf as [Hl Hc].
  unfold normalize, Go.normalize_key. rewrite Hlen, repeat_length.
  destruct (Nat.ltb_spec (len key) Go.blocksize) as [Hlt | Hge].
  - destruct (Nat.leb_spec (len key + (Go.blocksize - len key)) (cap key));
      cbn [fst]; [| reflexivity].
    rewrite <- (repeat_length 0 (Go.blocksize - len key)) at 2.
    apply bytes_write_extend. split; assumption.
  - destruct (Nat.ltb_spec Go.blocksize (len key)) as [Hgt | Hle];
      cbn [fst]; [| reflexivity].
    unfold bytes. cbn [ptr len]. rewrite firstn_firstn. f_equal. lia.
Qed.

Lemma normalize_memory_length (mem : memory) (key : slice) :
  well_formed mem key -> length (snd (normalize mem key)) = length mem.
Proof.
  intros [Hl Hc]. unfold normalize. rewrite repeat_length.
  destruct (len key <? Go.blocksize)%nat.
  - destruct (Nat.leb_spec (len key + (Go.blocksize - len key)) (cap key));
      cbn [snd]; [| reflexivity].
    apply write_length. rewrite repeat_length. lia.
  - destruct (Go.blocksize <? len key)%nat; reflexivity.
Qed.

(** HMAC never changes the bytes of the key. *)
Lemma normalize_keeps_key (mem : memory) (key : slice) :
  well_formed mem key -> bytes (snd (normalize mem key)) key = bytes mem key.
Proof.
  intros [Hl Hc]. unfold normalize.
  destruct (len key <? Go.blocksize)%nat.
  - destruct (len key + _ <=? cap key)%nat; cbn [snd]; [| reflexivity].
    apply bytes_write_before; lia.
  - destruct (Go.blocksize <? len key)%nat; reflexivity.
Qed.

(** A message clear of the padding is read as the caller wrote it. *)
Lemma normalize_keeps_message (mem : memory) (key message : slice) :
  well_formed mem key -> clear_of_padding key message ->
  bytes (snd (normalize mem key)) message = bytes mem message.
Proof.
  intros [Hl Hc] Hclear. unfold normalize. rewrite repeat_length.
  unfold clear_of_padding in Hclear.
  destruct (Nat.ltb_spec (len key) Go.blocksize) as [Hlt | Hge].
  - destruct (Nat.leb_spec (len key + (Go.blocksize - len key)) (cap key))
      as [Hroom | Hnoroom]; cbn [snd]; [| reflexivity].
    destruct Hclear as [H | [H | [H | [H | H]]]]; try lia.
    + unfold bytes. rewrite H. reflexivity.
    + apply bytes_write_before; lia.
    + apply bytes_write_after; rewrite repeat_length; lia.
  - destruct (Go.blocksize <? len key)%nat; reflexivity.
Qed.

(** In every layout HMAC returns, and returns the hash of the inner digest
    of the message as it stands after the key has been padded. *)
Lemma GoCall_HMAC_eq (mem : memory) (key message : slice) :
  well_formed mem key ->
  HMAC mem key message =
  Go.Ok (SHA1.Sum (SHA1.Sum
           (Spec.xor (Go.normalize_key (bytes mem key)) (Spec.ipad 64)
            ++ bytes (snd (normalize mem key)) message)),
         snd (normalize mem key)).
Proof.
  intros Hwf. unfold HMAC.
  pose proof (normalize_bytes mem key Hwf) as HK.
  destruct (normalize mem key) as [key' mem']. cbn [fst snd] in *. subst key'.
  rewrite Go_pads_repeat.
  rewrite Go_xor_loop_ok;
    [ | rewrite Go_normalize_key_length; reflexivity
      | apply repeat_length | apply repeat_length ].
  reflexivity.
Qed.

Lemma GoCall_HOTP_eq (mem : memory) (key counter : slice) :
  well_formed mem key ->
  HOTP mem key counter =
  Go.Ok (map Spec.digit (firstn 6 (SHA1.Sum (SHA1.Sum
           (Spec.xor (Go.normalize_key (bytes mem key)) (Spec.ipad 64)
            ++ bytes (snd (normalize mem key)) counter)))),
         snd (normalize mem key)).
Proof.
  intros Hwf. unfold HOTP. rewrite GoCall_HMAC_eq by assumption.
  cbn [Go.bind]. unfold Go.slice_to. rewrite Sum_length. reflexivity.
Qed.

(** [Go.HMAC] and [Go.HOTP] are the values of the calls, on the bytes of
    the key and on the bytes of the message found after the padding. *)
Lemma GoCall_HMAC_value (mem : memory) (key message : slice) :
  well_formed mem key ->
  HMAC mem key message =
  Go.bind (Go.HMAC (bytes mem key)
                   (bytes (snd (normalize mem key)) message))
          (fun tag => Go.Ok (tag, snd (normalize mem key))).
Proof.
  intros Hwf. rewrite GoCall_HMAC_eq by assumption.
  rewrite Go_HMAC_eq. reflexivity.
Qed.

Lemma GoCall_HOTP_value (mem : memory) (key counter : slice) :
  well_formed mem key ->
  HOTP mem key counter =
  Go.bind (Go.HOTP (bytes mem key)
                   (bytes (snd (normalize mem key)) counter))
          (fun code => Go.Ok (code, snd (normalize mem key))).
Proof.
  intros Hwf. rewrite GoCall_HOTP_eq by assumption.
  rewrite Go_HOTP_eq. reflexivity.
Qed.

End GoCallFacts.

(** ** HMAC *)

(** C1: the two-pass construction, with the outer digest
    [Hash((K' XOR opad) || inner)], is what the comments of both files
    announce; on the empty key and the empty message the code returns another
    value than that construction, whose value there is the standard
    HMAC-SHA1 one. *)
Theorem hmac_two_pass_fails_on_empty :
  Go.HMAC [] [] =
    Go.Ok [116; 8; 148; 87; 74; 79; 11; 157; 236; 190;
           10; 117; 242; 114; 135; 157; 91; 211; 104; 12] /\
  Spec.two_pass SHA1.Sum (Go.normalize_key []) [] =
    [0xfb; 0xdb; 0x1d; 0x1b; 0x18; 0xaa; 0x6c; 0x08; 0x32; 0x4b;
     0x7d; 0x64; 0xb7; 0x1f; 0xb7; 0x63; 0x70; 0x69; 0x0e; 0x1d] /\
  Go.HMAC [] [] <> Go.Ok (Spec.two_pass SHA1.Sum (Go.normalize_key []) []) /\
  JS.hmac JS.sha1_ref [] [] <>
    map Some (Spec.two_pass SHA1.Sum (JS.normalize_key []) []).
Proof.
  repeat split; try (vm_compute; reflexivity); vm_compute; discriminate.
Qed.




(** C8: the value returned by HMAC has 20 bytes, whatever the key and the
    message: in Go always, in JavaScript as soon as [sha1] returns digests of
    40 hexadecimal digits. *)
Theorem hmac_length :
  (forall key message,
     exists tag, Go.HMAC key message = Go.Ok tag /\ length tag = 20%nat) /\
  (forall sha1, JS.sha1_ok sha1 ->
     forall key message, length (JS.hmac sha1 key message) = 20%nat).
Proof.
  split.
  - intros key message. eexists. split; [apply Go_HMAC_eq |].
    apply Sum_length.
  - intros sha1 Hsha1 key message.
    destruct (JS_hmac_bytes sha1 Hsha1 key message) as [tag [-> [Hlen _]]].
    now rewrite length_map.
Qed.

Lemma hmac_length_witness :
  length (JS.hmac JS.sha1_ref [107; 101; 121] [49; 50]) = 20%nat.
Proof.
  exact (proj2 hmac_length JS.sha1_ref sha1_ref_ok [107; 101; 121] [49; 50]).
Defined.

(** ** Key normalisation *)

(** C7: a key longer than the 64-byte block is cut to its first 64 bytes; it
    is not hashed first, as a 65-byte key shows. *)
Theorem oversized_key_truncated :
  (forall key, (64 < length key)%nat ->
     Go.normalize_key key = firstn 64 key) /\
  (forall key, (64 < length key)%nat ->
     JS.normalize_key key = firstn 64 key) /\
  Go.normalize_key (repeat 0 65) <>
  Go.normalize_key (SHA1.Sum (repeat 0 65)).
Proof.
  repeat split.
  - intros key H. unfold Go.normalize_key.
    change Go.blocksize with 64%nat.
    destruct (Nat.ltb_spec (length key) 64); [lia |].
    destruct (Nat.ltb_spec 64 (length key)); [reflexivity | lia].
  - intros key H. unfold JS.normalize_key.
    change JS.blocksize with 64%nat.
    destruct (Nat.ltb_spec (length key) 64); [lia |].
    destruct (Nat.ltb_spec 64 (length key)); [reflexivity | lia].
  - vm_compute. discriminate.
Qed.

Lemma oversized_key_truncated_witness :
  Go.normalize_key (repeat 7 70) = firstn 64 (repeat 7 70) /\
  JS.normalize_key (repeat 7 70) = firstn 64 (repeat 7 70).
Proof.
  split.
  - apply (proj1 oversized_key_truncated (repeat 7 70)). cbn. lia.
  - apply (proj1 (proj2 oversized_key_truncated) (repeat 7 70)). cbn. lia.
Defined.

(** C9: normalisation leaves a key of exactly 64 bytes unchanged, and
    normalising twice is normalising once. *)
Theorem normalize_key_idempotent :
  (forall key, length key = 64%nat -> Go.normalize_key key = key) /\
  (forall key,
     Go.normalize_key (Go.normalize_key key) = Go.normalize_key key) /\
  (forall key, length key = 64%nat -> JS.normalize_key key = key) /\
  (forall key,
     JS.normalize_key (JS.normalize_key key) = JS.normalize_key key).
Proof.
  assert (G : forall key, length key = 64%nat -> Go.normalize_key key = key).
  { intros key H. unfold Go.normalize_key. rewrite H. reflexivity. }
  assert (J : forall key, length key = 64%nat -> JS.normalize_key key = key).
  { intros key H. unfold JS.normalize_key. rewrite H. reflexivity. }
  repeat split.
  - exact G.
  - intros key. apply G, Go_normalize_key_length.
  - exact J.
  - intros key. apply J, JS_normalize_key_length.
Qed.

Lemma normalize_key_idempotent_witness :
  Go.normalize_key (repeat 9 64) = repeat 9 64 /\
  JS.normalize_key (repeat 9 64) = repeat 9 64.
Proof.
  split.
  - apply (proj1 normalize_key_idempotent (repeat 9 64)). reflexivity.
  - apply (proj1 (proj2 (proj2 normalize_key_idempotent)) (repeat 9 64)).
    reflexivity.
Defined.

(** ** HOTP *)

(** C3: HOTP takes the tag HMAC(key, counter), keeps its first 6 bytes and
    writes each of them modulo 10, in order: as digit values in Go, as digit
    characters in JavaScript. *)
Theorem hotp_first_bytes_mod_10 :
  (forall key counter,
     exists tag, Go.HMAC key counter = Go.Ok tag /\
                 Go.HOTP key counter =
                 Go.Ok (map (fun b => b mod 10) (firstn 6 tag))) /\
  (forall sha1, JS.sha1_ok sha1 ->
     forall key counter,
     exists tag, JS.hmac sha1 key counter = map Some tag /\
                 JS.hotp sha1 key counter =
                 map (fun b => 48 + b mod 10) (firstn 6 tag)).
Proof.
  split.
  - intros key counter. eexists. split; [apply Go_HMAC_eq |].
    apply Go_HOTP_eq.
  - intros sha1 Hsha1 key counter.
    destruct (JS_hotp_eq sha1 Hsha1 key counter) as [tag [H1 [_ [_ H2]]]].
    exists tag. split; assumption.
Qed.

Lemma hotp_first_bytes_mod_10_witness :
  exists tag, JS.hmac JS.sha1_ref [107] [49] = map Some tag /\
              JS.hotp JS.sha1_ref [107] [49] =
              map (fun b => 48 + b mod 10) (firstn 6 tag).
Proof.
  exact (proj2 hotp_first_bytes_mod_10 JS.sha1_ref sha1_ref_ok [107] [49]).
Defined.

(** Against C4 as worded: the Go HOTP returns the digits as byte values, not
    as characters; on the empty key and counter its code is the bytes
    6 8 8 7 4 9, none of which lies between '0' (48) and '9' (57). *)
Lemma hotp_go_code_not_characters :
  Go.HOTP [] [] = Go.Ok [6; 8; 8; 7; 4; 9] /\
  Forall (fun c => ~ (48 <= c <= 57)) [6; 8; 8; 7; 4; 9].
Proof.
  split; [vm_compute; reflexivity |].
  repeat constructor; lia.
Qed.

(** C4, as the code has it: HOTP returns a code of exactly 6 decimal digits
    for every key and counter: 6 characters from '0' to '9' in JavaScript,
    6 bytes with the digit values 0 to 9 in Go. *)
Theorem hotp_six_digits :
  (forall sha1, JS.sha1_ok sha1 ->
     forall key counter,
       length (JS.hotp sha1 key counter) = 6%nat /\
       Forall (fun c => 48 <= c <= 57) (JS.hotp sha1 key counter)) /\
  (forall key counter,
     exists code, Go.HOTP key counter = Go.Ok code /\
                  length code = 6%nat /\
                  Forall (fun d => 0 <= d <= 9) code).
Proof.
  split.
  - intros sha1 Hsha1 key counter.
    destruct (JS_hotp_eq sha1 Hsha1 key counter) as [tag [_ [Hlen [_ ->]]]].
    split.
    + rewrite length_map. apply firstn_length_le. lia.
    + apply Forall_forall. intros c Hc.
      apply in_map_iff in Hc as [b [<- _]]. unfold Spec.digit_char.
      pose proof (Z.mod_pos_bound b 10 ltac:(lia)). lia.
  - intros key counter. eexists. split; [apply Go_HOTP_eq |]. split.
    + rewrite length_map. apply firstn_length_le.
      rewrite Sum_length. unfold SHA1.Size. lia.
    + apply Forall_forall. intros d Hd.
      apply in_map_iff in Hd as [b [<- _]]. unfold Spec.digit.
      pose proof (Z.mod_pos_bound b 10 ltac:(lia)). lia.
Qed.

Lemma hotp_six_digits_witness :
  length (JS.hotp JS.sha1_ref [107] [49]) = 6%nat /\
  Forall (fun c => 48 <= c <= 57) (JS.hotp JS.sha1_ref [107] [49]).
Proof.
  exact (proj1 hotp_six_digits JS.sha1_ref sha1_ref_ok [107] [49]).
Defined.




(** ** TOTP *)

(** Against C5 as worded: one second before the epoch the Go counter is 0,
    not the floor -1, and TOTP is not HOTP of the floor. *)
Lemma totp_floor_fails_before_epoch :
  Z.quot (-1) 30 <> (-1) / 30 /\
  Go.TOTP (-1) [] <> Go.HOTP [] (decimal ((-1) / 30)).
Proof. split; vm_compute; discriminate. Qed.

(** C5, as the code has it: TOTP is HOTP of the decimal text of the counter.
    In JavaScript the counter is the floor of the seconds (the milliseconds
    of the clock over 1000) over 30; in Go it is the seconds over 30
    truncated toward zero, which is the floor for every reading that is not
    negative. *)
Theorem totp_counter_decimal :
  (forall sha1 now key,
     JS.TC now = Qfloor (inject_Z now / inject_Z 1000 / inject_Z 30)%Q /\
     JS.TC now = now / 30000 /\
     JS.totp sha1 now key = JS.hotp sha1 key (decimal (JS.TC now))) /\
  (forall now key,
     Go.TOTP now key = Go.HOTP key (decimal (Z.quot now 30))) /\
  (forall now key,
     0 <= now -> Go.TOTP now key = Go.HOTP key (decimal (now / 30))) /\
  decimal 56666667 = bytes_of_string "56666667" /\
  decimal (-1) = bytes_of_string "-1".
Proof.
  repeat split.
  - apply JS_TC_div.
  - intros now key H. unfold Go.TOTP. now rewrite quot_floor.
Qed.

Lemma totp_counter_decimal_witness :
  Go.TOTP 1700000000 [107] = Go.HOTP [107] (decimal (1700000000 / 30)).
Proof.
  apply (proj1 (proj2 (proj2 totp_counter_decimal)) 1700000000 [107]). lia.
Defined.

(** Against C10 as worded: the readings -30 and -1 have the same floor
    over 30, and the Go TOTP returns different codes for them. *)
Lemma totp_window_fails_before_epoch :
  (-30) / 30 = (-1) / 30 /\
  Go.TOTP (-30) [] <> Go.TOTP (-1) [].
Proof. split; [reflexivity | vm_compute; discriminate]. Qed.

(** C10, as the code has it: two readings that give the same counter give
    the same code; the counter is the floor over the 30-second window in
    JavaScript, and in Go for readings that are not negative. *)
Theorem totp_same_window :
  (forall sha1 key now1 now2,
     Qfloor (inject_Z now1 / inject_Z 1000 / inject_Z 30)%Q =
     Qfloor (inject_Z now2 / inject_Z 1000 / inject_Z 30)%Q ->
     JS.totp sha1 now1 key = JS.totp sha1 now2 key) /\
  (forall key t1 t2,
     0 <= t1 -> 0 <= t2 -> t1 / 30 = t2 / 30 ->
     Go.TOTP t1 key = Go.TOTP t2 key) /\
  (forall key t1 t2,
     Z.quot t1 30 = Z.quot t2 30 -> Go.TOTP t1 key = Go.TOTP t2 key).
Proof.
  repeat split.
  - intros sha1 key now1 now2 H. unfold JS.totp, JS.TC. now rewrite H.
  - intros key t1 t2 H1 H2 H. unfold Go.TOTP.
    rewrite !quot_floor by assumption. now rewrite H.
  - intros key t1 t2 H. unfold Go.TOTP. now rewrite H.
Qed.

Lemma totp_same_window_witness :
  JS.totp JS.sha1_ref 1700000010000 [107] =
  JS.totp JS.sha1_ref 1700000029999 [107] /\
  Go.TOTP 1700000010 [107] = Go.TOTP 1700000029 [107].
Proof.
  split.
  - apply (proj1 totp_same_window JS.sha1_ref [107]
             1700000010000 1700000029999).
    reflexivity.
  - apply (proj1 (proj2 totp_same_window) [107] 1700000010 1700000029);
      [lia | lia | reflexivity].
Defined.

(** * Further properties of the code *)

(** ** Keys that HMAC cannot tell apart *)

Lemma Go_normalize_key_zeros (key : list Z) (n : nat) :
  (length key + n <= 64)%nat ->
  Go.normalize_key (key ++ repeat 0 n) = Go.normalize_key key.
Proof.
  intros H. unfold Go.normalize_key. change Go.blocksize with 64%nat.
  rewrite length_app, repeat_length.
  destruct (Nat.ltb_spec (length key + n) 64) as [Hlt | Hge].
  - destruct (Nat.ltb_spec (length key) 64); [| lia].
    rewrite <- app_assoc, <- repeat_app. do 2 f_equal. lia.
  - destruct (Nat.ltb_spec 64 (length key + n)); [lia |].
    destruct (Nat.ltb_spec (length key) 64) as [Hk | Hk].
    + do 2 f_equal. lia.
    + destruct (Nat.ltb_spec 64 (length key)); [lia |].
      replace n with 0%nat by lia. apply app_nil_r.
Qed.

Lemma Go_normalize_key_firstn (key : list Z) :
  Go.normalize_key (firstn 64 key) = Go.normalize_key key.
Proof.
  destruct (Nat.le_gt_cases (length key) 64) as [Hle | Hgt].
  - now rewrite firstn_all2.
  - unfold Go.normalize_key at 2. change Go.blocksize with 64%nat.
    destruct (Nat.ltb_spec (length key) 64); [lia |].
    destruct (Nat.ltb_spec 64 (length key)); [| lia].
    unfold Go.normalize_key. change Go.blocksize with 64%nat.
    rewrite firstn_length_le by lia. reflexivity.
Qed.

(** The two normalisations are the same function of the list. *)
Lemma JS_normalize_key_Go (key : list Z) :
  JS.normalize_key key = Go.normalize_key key.
Proof. reflexivity. Qed.

Lemma Go_HMAC_normalized (k1 k2 message : list Z) :
  Go.normalize_key k1 = Go.normalize_key k2 ->
  Go.HMAC k1 message = Go.HMAC k2 message.
Proof. intros H. unfold Go.HMAC. now rewrite H. Qed.

Lemma JS_hmac_normalized sha1 (k1 k2 message : JS.jsstring) :
  JS.normalize_key k1 = JS.normalize_key k2 ->
  JS.hmac sha1 k1 message = JS.hmac sha1 k2 message.
Proof. intros H. unfold JS.hmac. now rewrite H. Qed.

(** X1: whatever the key, the normalised key has exactly 64 elements, in
    both files. *)
Theorem normalized_key_block_length :
  (forall key, length (Go.normalize_key key) = 64%nat) /\
  (forall key, length (JS.normalize_key key) = 64%nat).
Proof.
  split; intros key;
    [apply Go_normalize_key_length | apply JS_normalize_key_length].
Qed.

(** X2: zero bytes behind a key, up to the block size, do not change the
    tag: a key and the same key followed by zeros give the same HMAC on the
    same message, so the empty key and every all-zero key of at most 64
    bytes are one key.  In Go this is for messages clear of the bytes that
    padding the key writes. *)
Theorem key_trailing_zeros_ignored :
  (forall mem1 key1 message1 mem2 key2 message2 n,
     GoCall.well_formed mem1 key1 -> GoCall.well_formed mem2 key2 ->
     GoCall.clear_of_padding key1 message1 ->
     GoCall.clear_of_padding key2 message2 ->
     (GoCall.len key1 + n <= 64)%nat ->
     GoCall.bytes mem2 key2 = GoCall.bytes mem1 key1 ++ repeat 0 n ->
     GoCall.bytes mem2 message2 = GoCall.bytes mem1 message1 ->
     exists tag mem1' mem2',
       GoCall.HMAC mem1 key1 message1 = Go.Ok (tag, mem1') /\
       GoCall.HMAC mem2 key2 message2 = Go.Ok (tag, mem2')) /\
  (forall sha1 key n message,
     (length key + n <= 64)%nat ->
     JS.hmac sha1 (key ++ repeat 0 n) message = JS.hmac sha1 key message).
Proof.
  split.
  - intros mem1 key1 message1 mem2 key2 message2 n
           Hwf1 Hwf2 Hc1 Hc2 Hn Hk Hm.
    eexists. eexists. eexists.
    rewrite !GoCall_HMAC_eq by assumption.
    rewrite !normalize_keeps_message by assumption.
    rewrite Hk, Hm, Go_normalize_key_zeros
      by (rewrite bytes_length by assumption; exact Hn).
    split; reflexivity.
  - intros sha1 key n message H.
    apply JS_hmac_normalized. rewrite !JS_normalize_key_Go.
    apply Go_normalize_key_zeros, H.
Qed.

Lemma key_trailing_zeros_ignored_witness :
  (exists tag mem1' mem2',
     GoCall.HMAC [107; 101; 121; 49]
       {| GoCall.ptr := 0; GoCall.len := 3; GoCall.cap := 3 |}
       {| GoCall.ptr := 3; GoCall.len := 1; GoCall.cap := 1 |} =
       Go.Ok (tag, mem1') /\
     GoCall.HMAC [107; 101; 121; 0; 0; 49]
       {| GoCall.ptr := 0; GoCall.len := 5; GoCall.cap := 5 |}
       {| GoCall.ptr := 5; GoCall.len := 1; GoCall.cap := 1 |} =
       Go.Ok (tag, mem2')) /\
  JS.hmac JS.sha1_ref ([] ++ repeat 0 64) [49] = JS.hmac JS.sha1_ref [] [49].
Proof.
  split.
  - apply (proj1 key_trailing_zeros_ignored
             [107; 101; 121; 49]
             {| GoCall.ptr := 0; GoCall.len := 3; GoCall.cap := 3 |}
             {| GoCall.ptr := 3; GoCall.len := 1; GoCall.cap := 1 |}
             [107; 101; 121; 0; 0; 49]
             {| GoCall.ptr := 0; GoCall.len := 5; GoCall.cap := 5 |}
             {| GoCall.ptr := 5; GoCall.len := 1; GoCall.cap := 1 |}
             2%nat).
    + unfold GoCall.well_formed. cbn. lia.
    + unfold GoCall.well_formed. cbn. lia.
    + unfold GoCall.clear_of_padding. cbn. lia.
    + unfold GoCall.clear_of_padding. cbn. lia.
    + cbn. lia.
    + reflexivity.
    + reflexivity.
  - apply (proj2 key_trailing_zeros_ignored JS.sha1_ref [] 64%nat [49]).
    cbn. lia.
Defined.

(** X3: HMAC reads at most the first 64 elements of the key: a key and its
    first 64 elements give the same tag on every message. *)
Theorem key_beyond_block_ignored :
  (forall key message,
     Go.HMAC key message = Go.HMAC (firstn 64 key) message) /\
  (forall sha1 key message,
     JS.hmac sha1 key message = JS.hmac sha1 (firstn 64 key) message).
Proof.
  split.
  - intros key message. symmetry.
    apply Go_HMAC_normalized, Go_normalize_key_firstn.
  - intros sha1 key message. symmetry.
    apply JS_hmac_normalized. rewrite !JS_normalize_key_Go.
    apply Go_normalize_key_firstn.
Qed.

(** ** The pads and the XOR loop of the Go HMAC *)

Lemma xor_length (a b : list Z) :
  length (Spec.xor a b) = Nat.min (length a) (length b).
Proof.
  revert b. induction a as [| x a IH]; intros [| y b]; cbn; auto.
Qed.

(** X5: after [n] iterations the pad loop has built [n] bytes 0x5C and [n]
    bytes 0x36; both pads have the block size when it stops. *)
Theorem pads_constant_bytes :
  forall n,
    Go.pads n = (repeat 0x5C n, repeat 0x36 n) /\
    length (fst (Go.pads n)) = n /\ length (snd (Go.pads n)) = n.
Proof.
  intros n. rewrite Go_pads_repeat. unfold Spec.opad, Spec.ipad.
  cbn [fst snd]. rewrite !repeat_length. auto.
Qed.

(** X6: on the normalised key the XOR loop stays in range for every key: it
    returns the two byte-wise XORs, of 64 bytes each. *)
Theorem xor_loop_in_range :
  forall key,
    let K' := Go.normalize_key key in
    Go.xor_loop K' (repeat 0x5C 64) (repeat 0x36 64) 0 64 =
      Go.Ok (Spec.xor K' (repeat 0x5C 64), Spec.xor K' (repeat 0x36 64)) /\
    length (Spec.xor K' (repeat 0x5C 64)) = 64%nat /\
    length (Spec.xor K' (repeat 0x36 64)) = 64%nat.
Proof.
  intros key K'. split.
  - apply (Go_xor_loop_ok K' (repeat 0x5C 64) (repeat 0x36 64) 64 0);
      [apply Go_normalize_key_length | apply repeat_length
       | apply repeat_length].
  - rewrite !xor_length, !repeat_length.
    unfold K'. rewrite Go_normalize_key_length. split; reflexivity.
Qed.

(** ** Reading the digest text in hmac *)

Lemma hex_bytes_length_le :
  forall (n : nat) (s : JS.jsstring),
    (length s <= n)%nat ->
    length (JS.hex_bytes s) = Nat.div2 (S (length s)).
Proof.
  induction n as [| n IH]; intros s Hn.
  - destruct s; [reflexivity | cbn in Hn; lia].
  - destruct s as [| c1 [| c2 rest]]; [reflexivity | reflexivity |].
    cbn [JS.hex_bytes length]. rewrite IH by (cbn in Hn; lia).
    reflexivity.
Qed.

Lemma hex_bytes_length_aux :
  (forall s, length (JS.hex_bytes s) = Nat.div2 (S (length s))) /\
  (forall sha1 key message,
     length (JS.hmac sha1 key message) =
     Nat.div2 (S (length
       (sha1 (JS.Arr (JS.hex_bytes (sha1 (JS.Str
          (JS.xor_loop (JS.normalize_key key) (repeat 0x36 64) 0
           ++ message))))))))).
Proof.
  split.
  - intros s. apply (hex_bytes_length_le (length s)). lia.
  - intros sha1 key message.
    unfold JS.hmac. apply (hex_bytes_length_le _ _ (Nat.le_refl _)).
Qed.

(** X8: the loop that reads the digest text yields one number for every
    two characters and one more for a last lone character, whatever the
    text; so hmac returns half as many numbers, rounded up, as the outer
    [sha1] returns characters. *)
Theorem hex_bytes_length :
  (forall s, length (JS.hex_bytes s) = Nat.div2 (S (length s))) /\
  (forall sha1 key message,
     length (JS.hmac sha1 key message) =
     Nat.div2 (S (length
       (sha1 (JS.Arr (JS.hex_bytes (sha1 (JS.Str
          (JS.xor_loop (JS.normalize_key key) (repeat 0x36 64) 0
           ++ message))))))))).
Proof. exact hex_bytes_length_aux. Qed.

Lemma hex_digit_hex_char (d : Z) :
  0 <= d < 16 -> JS.hex_digit (JS.hex_char d) = Some d.
Proof.
  intros Hd. unfold JS.hex_digit, JS.hex_char.
  destruct (Z.ltb_spec d 10); decide_cmp; cbn [andb]; f_equal; lia.
Qed.

Lemma hex_round_trip :
  forall bs, Forall Spec.is_byte bs ->
    JS.hex_bytes (JS.hex_string bs) = map Some bs.
Proof.
  intros bs Hall. induction Hall as [| b bs Hb _ IH]; [reflexivity |].
  unfold Spec.is_byte in Hb. unfold JS.hex_string in *.
  cbn [flat_map app JS.hex_bytes map]. rewrite IH.
  assert (H1 : 0 <= b / 16 < 16)
    by (split; [apply Z.div_pos; lia | apply Z.div_lt_upper_bound; lia]).
  assert (H2 : 0 <= b mod 16 < 16) by (apply Z.mod_pos_bound; lia).
  rewrite (parseInt16_pair _ _ _ _
             (hex_digit_hex_char _ H1) (hex_digit_hex_char _ H2)).
  do 2 f_equal. symmetry. apply Z.div_mod. lia.
Qed.

(** X9: the loop reads back the bytes of a digest written in lower-case
    hexadecimal, two digits per byte. *)
Theorem hex_bytes_of_hex_string :
  forall bs, Forall Spec.is_byte bs ->
    JS.hex_bytes (JS.hex_string bs) = map Some bs.
Proof. exact hex_round_trip. Qed.

Lemma hex_bytes_of_hex_string_witness :
  JS.hex_bytes (JS.hex_string [0; 10; 171; 255]) =
  map Some [0; 10; 171; 255].
Proof.
  apply (hex_bytes_of_hex_string [0; 10; 171; 255]).
  repeat constructor; unfold Spec.is_byte; lia.
Defined.

(** X10: when [sha1] returns 40 hexadecimal digits, every element of the
    array hmac returns is an integer from 0 to 255: none is [NaN]. *)
Theorem hmac_elements_are_bytes :
  forall sha1, JS.sha1_ok sha1 ->
  forall key message,
    Forall (fun x => exists b, x = Some b /\ 0 <= b < 256)
           (JS.hmac sha1 key message).
Proof.
  intros sha1 Hsha1 key message.
  destruct (JS_hmac_bytes sha1 Hsha1 key message) as [tag [-> [_ Hall]]].
  apply Forall_forall. intros x Hx.
  apply in_map_iff in Hx as [b [<- Hb]]. exists b. split; [reflexivity |].
  apply (proj1 (Forall_forall _ _) Hall b Hb).
Qed.

Lemma hmac_elements_are_bytes_witness :
  Forall (fun x => exists b, x = Some b /\ 0 <= b < 256)
         (JS.hmac JS.sha1_ref [107] [49]).
Proof.
  exact (hmac_elements_are_bytes JS.sha1_ref sha1_ref_ok [107] [49]).
Defined.

(** X11: hotp does not check the digest it gets: when [sha1] returns at
    most 10 characters, hmac has fewer than 6 elements and the code hotp
    returns ends with the text NaN. *)
Theorem hotp_short_digest_gives_NaN :
  forall sha1, (forall v, (length (sha1 v) <= 10)%nat) ->
  forall key counter,
    exists code,
      JS.hotp sha1 key counter = code ++ bytes_of_string "NaN".
Proof.
  intros sha1 Hshort key counter.
  unfold JS.hotp, JS.hotp_with.
  change (Z.to_nat JS.codeLen) with 6%nat.
  rewrite (seq_S 5 0), fold_left_app. cbn [fold_left Nat.add].
  eexists. f_equal.
  assert (Hh : (length (JS.hmac sha1 key counter) <= 5)%nat).
  { rewrite (proj2 hex_bytes_length_aux sha1 key counter).
    match goal with |- (Nat.div2 (S (length (sha1 ?v))) <= 5)%nat =>
      pose proof (Hshort v) as Hv; revert Hv;
      generalize (length (sha1 v)) as n end.
    intros n Hn.
    do 11 (destruct n as [| n]; [cbn; lia |]). lia. }
  unfold JS.elem.
  replace (nth_error _ 5) with (@None JS.jsnum); [reflexivity |].
  symmetry. apply nth_error_None.
  unfold JS.slice0. rewrite length_firstn. lia.
Qed.

Lemma hotp_short_digest_gives_NaN_witness :
  exists code,
    JS.hotp (fun _ => [52; 50]) [107] [49] = code ++ bytes_of_string "NaN".
Proof.
  apply (hotp_short_digest_gives_NaN (fun _ => [52; 50])).
  intros v. cbn. lia.
Defined.

(** ** The windows of TOTP *)

Lemma bytes_of_string_inj (s1 s2 : string) :
  bytes_of_string s1 = bytes_of_string s2 -> s1 = s2.
Proof.
  unfold bytes_of_string. intros H.
  rewrite <- (string_of_list_ascii_of_string s1),
          <- (string_of_list_ascii_of_string s2).
  f_equal. revert H.
  generalize (list_ascii_of_string s1) as l1,
             (list_ascii_of_string s2) as l2.
  induction l1 as [| a l1 IH]; intros [| b l2] H; cbn in H;
    try discriminate; [reflexivity |].
  injection H as Hab Hl. f_equal; [| now apply IH].
  apply Nat2Z.inj in Hab.
  rewrite <- (ascii_nat_embedding a), <- (ascii_nat_embedding b).
  now rewrite Hab.
Qed.

Lemma to_int_not_nil (z : Z) :
  Z.to_int z <> Decimal.Pos Decimal.Nil /\
  Z.to_int z <> Decimal.Neg Decimal.Nil.
Proof.
  destruct z as [| p | p]; cbn; split; intros H; try discriminate;
    injection H as H; exact (Unsigned.to_uint_nonnil p H).
Qed.

Lemma decimal_inj (a b : Z) : decimal a = decimal b -> a = b.
Proof.
  unfold decimal. intros H. apply bytes_of_string_inj in H.
  apply to_int_inj.
  destruct (to_int_not_nil a) as [Ha1 Ha2].
  destruct (to_int_not_nil b) as [Hb1 Hb2].
  apply (f_equal NilZero.int_of_string) in H.
  rewrite !NilZero.isi in H by assumption. now injection H.
Qed.

Lemma JS_TC_seconds (t r : Z) :
  0 <= r < 1000 -> JS.TC (1000 * t + r) = t / 30.
Proof.
  intros Hr. rewrite JS_TC_div.
  change 30000 with (1000 * 30). rewrite <- Z.div_div by lia.
  f_equal. rewrite Z.mul_comm, Z.div_add_l by lia.
  rewrite (Z.div_small r 1000) by lia. lia.
Qed.

(** X12: in Go the window around the epoch is 59 seconds long: every
    reading strictly between -30 and 30 gets the code of the reading 0. *)
Theorem totp_double_window_at_epoch :
  forall key now, -30 < now < 30 -> Go.TOTP now key = Go.TOTP 0 key.
Proof.
  intros key now H. unfold Go.TOTP.
  replace (Z.quot now 30) with 0; [reflexivity |].
  symmetry. apply Z.quot_small_iff; lia.
Qed.

Lemma totp_double_window_at_epoch_witness :
  Go.TOTP (-29) [107] = Go.TOTP 0 [107] /\
  Go.TOTP 29 [107] = Go.TOTP 0 [107].
Proof.
  split; apply totp_double_window_at_epoch; lia.
Defined.

(** X13: the counter [TC] that totp derives from a millisecond clock is the
    floor of the whole seconds over 30, and from the epoch on it is the
    counter that the Go TOTP derives from the same time in seconds. *)
Theorem totp_counters_agree :
  forall t r, 0 <= r < 1000 ->
    JS.TC (1000 * t + r) = t / 30 /\
    (0 <= t -> JS.TC (1000 * t + r) = Z.quot t 30).
Proof.
  intros t r Hr. split; [now apply JS_TC_seconds |].
  intros Ht. rewrite quot_floor by assumption. now apply JS_TC_seconds.
Qed.

Lemma totp_counters_agree_witness :
  JS.TC (1000 * 1700000000 + 999) = 1700000000 / 30 /\
  (0 <= 1700000000 ->
   JS.TC (1000 * 1700000000 + 999) = Z.quot 1700000000 30).
Proof. apply (totp_counters_agree 1700000000 999). lia. Defined.

(** X14: the decimal text of the counter determines the counter: two
    readings are hashed with the same message exactly when they have the
    same counter, so no two windows share a message. *)
Theorem totp_message_determines_window :
  (forall now1 now2,
     decimal (JS.TC now1) = decimal (JS.TC now2) <->
     now1 / 30000 = now2 / 30000) /\
  (forall t1 t2,
     decimal (Z.quot t1 30) = decimal (Z.quot t2 30) <->
     Z.quot t1 30 = Z.quot t2 30).
Proof.
  split.
  - intros now1 now2. rewrite <- !JS_TC_div. split.
    + apply decimal_inj.
    + intros H. now rewrite H.
  - intros t1 t2. split.
    + apply decimal_inj.
    + intros H. now rewrite H.
Qed.

Lemma totp_message_determines_window_witness :
  0 / 30000 = 29999 / 30000 /\ Z.quot (-29) 30 = Z.quot 29 30.
Proof.
  split.
  - apply (proj1 (proj1 totp_message_determines_window 0 29999)).
    reflexivity.
  - apply (proj1 (proj2 totp_message_determines_window (-29) 29)).
    reflexivity.
Defined.

(** ** The two files against each other *)

Lemma lxor_byte (a b : Z) :
  Spec.is_byte a -> Spec.is_byte b -> Spec.is_byte (Z.lxor a b).
Proof.
  unfold Spec.is_byte. intros Ha Hb.
  assert (Hnn : 0 <= Z.lxor a b) by (apply Z.lxor_nonneg; lia).
  split; [exact Hnn |].
  destruct (Z.eq_dec (Z.lxor a b) 0) as [-> | Hne]; [lia |].
  change 256 with (2 ^ 8).
  apply Z.log2_lt_pow2; [lia |].
  assert (Hla : Z.log2 a < 8).
  { destruct (Z.eq_dec a 0) as [-> | Hz]; [cbn; lia |].
    apply Z.log2_lt_pow2; lia. }
  assert (Hlb : Z.log2 b < 8).
  { destruct (Z.eq_dec b 0) as [-> | Hz]; [cbn; lia |].
    apply Z.log2_lt_pow2; lia. }
  pose proof (Z.log2_lxor a b ltac:(lia) ltac:(lia)). lia.
Qed.

Lemma xor_bytes (a b : list Z) :
  Forall Spec.is_byte a -> Forall Spec.is_byte b ->
  Forall Spec.is_byte (Spec.xor a b).
Proof.
  intros Ha. revert b. induction Ha as [| x a Hx _ IH]; intros b Hb;
    [constructor |].
  destruct Hb as [| y b Hy Hb]; [constructor |].
  cbn [Spec.xor]. constructor; [now apply lxor_byte | now apply IH].
Qed.

Lemma Go_normalize_key_bytes (key : list Z) :
  Forall Spec.is_byte key -> Forall Spec.is_byte (Go.normalize_key key).
Proof.
  intros Hkey. unfold Go.normalize_key.
  destruct (length key <? Go.blocksize)%nat.
  - apply Forall_app. split; [exact Hkey |].
    apply Forall_forall. intros x Hx. apply repeat_spec in Hx. subst x.
    unfold Spec.is_byte. lia.
  - destruct (Go.blocksize <? length key)%nat; [| exact Hkey].
    rewrite <- (firstn_skipn Go.blocksize key) in Hkey.
    apply Forall_app in Hkey. apply Hkey.
Qed.

Lemma byte_is_code_unit (l : list Z) :
  Forall Spec.is_byte l -> Forall Spec.is_code_unit l.
Proof.
  apply Forall_impl. unfold Spec.is_byte, Spec.is_code_unit. lia.
Qed.

Lemma map_mod_256_bytes (l : list Z) :
  Forall Spec.is_byte l -> map (fun c => c mod 256) l = l.
Proof.
  intros H. induction H as [| x l Hx _ IH]; [reflexivity |].
  cbn [map]. rewrite IH. f_equal. apply Z.mod_small, Hx.
Qed.

Lemma sha1_ref_Str (s : list Z) :
  Forall Spec.is_byte s ->
  JS.hex_bytes (JS.sha1_ref (JS.Str s)) = map Some (SHA1.Sum s).
Proof.
  intros Hs. unfold JS.sha1_ref, JS.arg_bytes.
  rewrite map_mod_256_bytes by assumption.
  apply hex_round_trip, Sum_bytes.
Qed.

Lemma sha1_ref_Arr (a : list Z) :
  Forall Spec.is_byte a ->
  JS.hex_bytes (JS.sha1_ref (JS.Arr (map Some a))) = map Some (SHA1.Sum a).
Proof.
  intros Ha. unfold JS.sha1_ref, JS.arg_bytes.
  rewrite map_map, map_mod_256_bytes by assumption.
  apply hex_round_trip, Sum_bytes.
Qed.

Lemma JS_hmac_ref (key message : list Z) :
  Forall Spec.is_byte key -> Forall Spec.is_byte message ->
  JS.hmac JS.sha1_ref key message =
  map Some (SHA1.Sum (SHA1.Sum
    (Spec.xor (Go.normalize_key key) (Spec.ipad 64) ++ message))).
Proof.
  intros Hkey Hmsg.
  rewrite JS_hmac_eq by now apply byte_is_code_unit.
  rewrite JS_normalize_key_Go. change JS.blocksize with 64%nat.
  rewrite sha1_ref_Str.
  - apply sha1_ref_Arr, Sum_bytes.
  - apply Forall_app. split; [| exact Hmsg].
    apply xor_bytes; [now apply Go_normalize_key_bytes |].
    apply Forall_forall. intros x Hx. apply repeat_spec in Hx. subst x.
    unfold Spec.is_byte. lia.
Qed.

Lemma decimal_bytes (z : Z) : Forall Spec.is_byte (decimal z).
Proof.
  unfold decimal, bytes_of_string. apply Forall_forall. intros x Hx.
  apply in_map_iff in Hx as [c [<- _]].
  pose proof (nat_ascii_bounded c). unfold Spec.is_byte. lia.
Qed.

Lemma JS_hotp_ref (key counter : list Z) :
  Forall Spec.is_byte key -> Forall Spec.is_byte counter ->
  exists code, Go.HOTP key counter = Go.Ok code /\
               JS.hotp JS.sha1_ref key counter = map (fun d => 48 + d) code.
Proof.
  intros Hkey Hctr. eexists. split; [apply Go_HOTP_eq |].
  destruct (JS_hotp_eq JS.sha1_ref sha1_ref_ok key counter)
    as [tag [Htag [_ [_ ->]]]].
  rewrite JS_hmac_ref in Htag by assumption.
  assert (E : tag = SHA1.Sum (SHA1.Sum
            (Spec.xor (Go.normalize_key key) (Spec.ipad 64) ++ counter))).
  { revert Htag. generalize (SHA1.Sum (SHA1.Sum
      (Spec.xor (Go.normalize_key key) (Spec.ipad 64) ++ counter))) as l.
    intros l. revert tag.
    induction l as [| x l IH]; intros [| y tag] H; cbn in H;
      try discriminate; [reflexivity |].
    injection H as -> H. f_equal. now apply IH. }
  rewrite E, map_map. reflexivity.
Qed.

Lemma ascii_is_byte (l : list Z) :
  Forall (fun b => 0 <= b < 128) l -> Forall Spec.is_byte l.
Proof. apply Forall_impl. unfold Spec.is_byte. lia. Qed.

(** X15: with a [sha1] that hashes the code units of a string and the
    elements of an array as bytes and prints the digest in lower-case
    hexadecimal, hmac in otp.js returns the bytes of the tag that the Go
    HMAC returns, for keys and messages of 7-bit characters; in Go the
    message is clear of the bytes that padding the key writes. *)
Theorem js_hmac_is_go_hmac :
  forall mem key message,
    GoCall.well_formed mem key -> GoCall.clear_of_padding key message ->
    Forall (fun b => 0 <= b < 128) (GoCall.bytes mem key) ->
    Forall (fun b => 0 <= b < 128) (GoCall.bytes mem message) ->
    exists tag mem',
      GoCall.HMAC mem key message = Go.Ok (tag, mem') /\
      JS.hmac JS.sha1_ref (GoCall.bytes mem key) (GoCall.bytes mem message) =
      map Some tag.
Proof.
  intros mem key message Hwf Hclear Hkey Hmsg. eexists. eexists.
  rewrite GoCall_HMAC_eq by assumption.
  rewrite normalize_keeps_message by assumption.
  split; [reflexivity |].
  apply JS_hmac_ref; now apply ascii_is_byte.
Qed.

Lemma js_hmac_is_go_hmac_witness :
  exists tag mem',
    GoCall.HMAC [107; 101; 121; 49; 50]
      {| GoCall.ptr := 0; GoCall.len := 3; GoCall.cap := 3 |}
      {| GoCall.ptr := 3; GoCall.len := 2; GoCall.cap := 2 |} =
      Go.Ok (tag, mem') /\
    JS.hmac JS.sha1_ref
      (GoCall.bytes [107; 101; 121; 49; 50]
         {| GoCall.ptr := 0; GoCall.len := 3; GoCall.cap := 3 |})
      (GoCall.bytes [107; 101; 121; 49; 50]
         {| GoCall.ptr := 3; GoCall.len := 2; GoCall.cap := 2 |}) =
    map Some tag.
Proof.
  apply js_hmac_is_go_hmac.
  - unfold GoCall.well_formed. cbn. lia.
  - unfold GoCall.clear_of_padding. cbn. lia.
  - repeat constructor; lia.
  - repeat constructor; lia.
Defined.

(** X16: with the same [sha1] and 7-bit keys, hotp and totp in otp.js
    return the digits of the Go HOTP and TOTP codes as characters: hotp on
    7-bit counters clear of the bytes that padding the key writes, totp at
    every millisecond of a second at or after the epoch. *)
Theorem js_codes_are_go_codes :
  (forall mem key counter,
     GoCall.well_formed mem key -> GoCall.clear_of_padding key counter ->
     Forall (fun b => 0 <= b < 128) (GoCall.bytes mem key) ->
     Forall (fun b => 0 <= b < 128) (GoCall.bytes mem counter) ->
     exists code mem',
       GoCall.HOTP mem key counter = Go.Ok (code, mem') /\
       JS.hotp JS.sha1_ref (GoCall.bytes mem key) (GoCall.bytes mem counter) =
       map (fun d => 48 + d) code) /\
  (forall key t r,
     Forall (fun b => 0 <= b < 128) key -> 0 <= t -> 0 <= r < 1000 ->
     exists code, Go.TOTP t key = Go.Ok code /\
                  JS.totp JS.sha1_ref (1000 * t + r) key =
                  map (fun d => 48 + d) code).
Proof.
  split.
  - intros mem key counter Hwf Hclear Hkey Hctr.
    destruct (JS_hotp_ref (GoCall.bytes mem key) (GoCall.bytes mem counter))
      as [code [Hgo Hjs]]; try now apply ascii_is_byte.
    rewrite Go_HOTP_eq in Hgo. injection Hgo as Hcode.
    exists code. eexists. split; [| exact Hjs].
    rewrite GoCall_HOTP_eq by assumption.
    rewrite normalize_keeps_message by assumption.
    rewrite <- Hcode. reflexivity.
  - intros key t r Hkey Ht Hr. unfold Go.TOTP, JS.totp.
    rewrite JS_TC_seconds, <- quot_floor by assumption.
    apply JS_hotp_ref; [now apply ascii_is_byte | apply decimal_bytes].
Qed.

Lemma js_codes_are_go_codes_witness :
  exists code, Go.TOTP 1700000000 [107] = Go.Ok code /\
               JS.totp JS.sha1_ref (1000 * 1700000000 + 500) [107] =
               map (fun d => 48 + d) code.
Proof.
  apply (proj2 js_codes_are_go_codes [107] 1700000000 500);
    [repeat constructor; lia | lia | lia].
Defined.

(** ** What the Go functions share with their caller *)

(** X20: in every layout of the caller's memory the Go HMAC returns, and
    hashes the message as it stands after the key has been padded.  The
    memory keeps its size and the bytes of the key; it is changed only when
    the key is shorter than 64 bytes in a slice of capacity 64 or more, by
    zeros written from the end of the key up to its byte 64; a message clear
    of those bytes is hashed as the caller wrote it. *)
Theorem hmac_reads_message_after_padding :
  forall mem key message,
    GoCall.well_formed mem key ->
    exists mem',
      GoCall.HMAC mem key message =
      Go.Ok (SHA1.Sum (SHA1.Sum
               (Spec.xor (Go.normalize_key (GoCall.bytes mem key))
                         (Spec.ipad 64)
                ++ GoCall.bytes mem' message)), mem') /\
      length mem' = length mem /\
      GoCall.bytes mem' key = GoCall.bytes mem key /\
      (GoCall.clear_of_padding key message ->
         GoCall.bytes mem' message = GoCall.bytes mem message) /\
      ((GoCall.len key < 64 <= GoCall.cap key)%nat ->
         mem' = GoCall.write mem (GoCall.ptr key + GoCall.len key)
                  (repeat 0 (64 - GoCall.len key))) /\
      (~ (GoCall.len key < 64 <= GoCall.cap key)%nat -> mem' = mem).
Proof.
  intros mem key message Hwf.
  exists (snd (GoCall.normalize mem key)).
  split; [now apply GoCall_HMAC_eq |].
  split; [now apply normalize_memory_length |].
  split; [now apply normalize_keeps_key |].
  split; [now apply normalize_keeps_message |].
  unfold GoCall.normalize. rewrite repeat_length.
  change Go.blocksize with 64%nat.
  destruct (Nat.ltb_spec (GoCall.len key) 64) as [Hlt | Hge].
  - destruct (Nat.leb_spec (GoCall.len key + (64 - GoCall.len key))
                           (GoCall.cap key)); cbn [snd];
      split; intros; try reflexivity; lia.
  - destruct (64 <? GoCall.len key)%nat; cbn [snd];
      split; intros; try reflexivity; lia.
Qed.

Lemma hmac_reads_message_after_padding_witness :
  exists mem',
    GoCall.HMAC ([1; 2; 3; 4; 5] ++ repeat 7 61)
      {| GoCall.ptr := 0; GoCall.len := 3; GoCall.cap := 64 |}
      {| GoCall.ptr := 64; GoCall.len := 2; GoCall.cap := 2 |} =
    Go.Ok (SHA1.Sum (SHA1.Sum
             (Spec.xor (Go.normalize_key [1; 2; 3]) (Spec.ipad 64)
              ++ [7; 7])), mem') /\
    mem' = [1; 2; 3] ++ repeat 0 61 ++ [7; 7].
Proof.
  destruct (hmac_reads_message_after_padding
              ([1; 2; 3; 4; 5] ++ repeat 7 61)
              {| GoCall.ptr := 0; GoCall.len := 3; GoCall.cap := 64 |}
              {| GoCall.ptr := 64; GoCall.len := 2; GoCall.cap := 2 |})
    as [mem' [H1 [_ [_ [H2 [H3 _]]]]]].
  - unfold GoCall.well_formed. cbn. lia.
  - exists mem'. split.
    + rewrite H1. rewrite H2 by (unfold GoCall.clear_of_padding; cbn; lia).
      reflexivity.
    + rewrite H3 by (cbn; lia). reflexivity.
Defined.

Lemma elems_length (s : GoSlice.slice) :
  GoSlice.well_formed s -> length (GoSlice.elems s) = GoSlice.len s.
Proof.
  unfold GoSlice.well_formed, GoSlice.cap, GoSlice.elems. intros H.
  now apply firstn_length_le.
Qed.

(** X17: HMAC never changes the bytes of the key it is given, and computes
    on the normalised key; but when the key is shorter than 64 bytes and its
    slice has a capacity of 64 or more, padding the key writes zeros into the
    caller's array, from the end of the key up to byte 64.  In every other
    case the caller's array is left as it was. *)
Theorem hmac_pads_key_in_callers_array :
  forall key, GoSlice.well_formed key ->
    exists k arr,
      GoSlice.HMAC_key key = Go.Ok (k, arr) /\
      GoSlice.elems k = Go.normalize_key (GoSlice.elems key) /\
      firstn (GoSlice.len key) arr = GoSlice.elems key /\
      ((GoSlice.len key < 64 <= GoSlice.cap key)%nat ->
         arr = GoSlice.elems key ++ repeat 0 (64 - GoSlice.len key)
               ++ skipn 64 (GoSlice.under key)) /\
      (~ (GoSlice.len key < 64 <= GoSlice.cap key)%nat ->
         arr = GoSlice.under key).
Proof.
  intros key Hwf. pose proof (elems_length key Hwf) as Hlen.
  unfold GoSlice.HMAC_key, Go.normalize_key. rewrite Hlen.
  change Go.blocksize with 64%nat.
  unfold GoSlice.well_formed in Hwf.
  destruct (Nat.ltb_spec (GoSlice.len key) 64) as [Hlt | Hge].
  - unfold GoSlice.append. rewrite repeat_length.
    replace (GoSlice.len key + (64 - GoSlice.len key))%nat with 64%nat by lia.
    destruct (Nat.leb_spec 64 (GoSlice.cap key)) as [Hcap | Hcap].
    + eexists. eexists. split; [reflexivity |].
      assert (Hl : length (GoSlice.elems key ++ repeat 0 (64 - GoSlice.len key))
                   = 64%nat)
        by (rewrite length_app, repeat_length; lia).
      split; [| split; [| split]].
      * unfold GoSlice.elems at 1. cbn [GoSlice.under GoSlice.len].
        rewrite app_assoc. now apply firstn_app_exact.
      * now apply firstn_app_exact.
      * reflexivity.
      * lia.
    + eexists. eexists. split; [reflexivity |].
      split; [| split; [| split]].
      * unfold GoSlice.elems at 1. cbn [GoSlice.under GoSlice.len].
        apply firstn_all2. rewrite length_app, repeat_length. lia.
      * reflexivity.
      * lia.
      * reflexivity.
  - destruct (Nat.ltb_spec 64 (GoSlice.len key)) as [Hgt | Hle].
    + unfold GoSlice.reslice.
      destruct (Nat.leb_spec 64 (GoSlice.cap key)); [| lia].
      cbn [Go.bind]. eexists. eexists. split; [reflexivity |].
      split; [| split; [| split]].
      * unfold GoSlice.elems. cbn [GoSlice.under GoSlice.len].
        rewrite firstn_firstn. f_equal. lia.
      * reflexivity.
      * lia.
      * reflexivity.
    + eexists. eexists. split; [reflexivity |].
      split; [| split; [| split]]; try reflexivity. lia.
Qed.

Lemma hmac_pads_key_in_callers_array_witness :
  exists k arr,
    GoSlice.HMAC_key
      {| GoSlice.under := [1; 2; 3] ++ repeat 9 67; GoSlice.len := 3 |} =
      Go.Ok (k, arr) /\
    arr = [1; 2; 3] ++ repeat 0 61 ++ repeat 9 6.
Proof.
  destruct (hmac_pads_key_in_callers_array
              {| GoSlice.under := [1; 2; 3] ++ repeat 9 67; GoSlice.len := 3 |})
    as [k [arr [H1 [_ [_ [H2 _]]]]]].
  - unfold GoSlice.well_formed, GoSlice.cap. cbn. lia.
  - exists k, arr. split; [exact H1 |].
    apply H2. unfold GoSlice.cap. cbn. lia.
Defined.

(** X18: the slice HOTP returns has the 6 digits as its elements and the
    whole 20-byte array of the tag under it: from index 6 to its capacity
    the caller finds the bytes 6 to 19 of HMAC(key, counter), unreduced. *)
Theorem hotp_slice_keeps_tag_bytes :
  forall key counter,
    exists tag code s,
      Go.HMAC key counter = Go.Ok tag /\
      Go.HOTP key counter = Go.Ok code /\
      GoSlice.HOTP key counter = Go.Ok s /\
      GoSlice.elems s = code /\
      GoSlice.len s = 6%nat /\ GoSlice.cap s = 20%nat /\
      skipn 6 (GoSlice.under s) = skipn 6 tag.
Proof.
  intros key counter. unfold GoSlice.HOTP.
  rewrite Go_HOTP_eq, Go_HMAC_eq. cbn [Go.bind].
  set (tag := SHA1.Sum _).
  assert (Hlen : length tag = 20%nat) by apply Sum_length.
  unfold GoSlice.reslice, GoSlice.cap. cbn [GoSlice.under].
  rewrite Hlen. change (Z.to_nat Go.codeLen) with 6%nat.
  cbn [Nat.leb Go.bind].
  assert (H6 : length (map (fun b => b mod 10) (firstn 6 tag)) = 6%nat)
    by (rewrite length_map; apply firstn_length_le; lia).
  exists tag. eexists. eexists.
  split; [reflexivity |]. split; [reflexivity |]. split; [reflexivity |].
  unfold GoSlice.mod10_in_place, GoSlice.elems, GoSlice.cap.
  cbn [GoSlice.under GoSlice.len].
  split; [| split; [reflexivity | split]].
  - now apply firstn_app_exact.
  - rewrite length_app, H6, length_skipn. lia.
  - now apply skipn_app_exact.
Qed.

(** ** What otp.js leaves in global variables *)

Lemma normalize_key_prefix (key : list Z) :
  (length key <= 64)%nat ->
  firstn (length key) (JS.normalize_key key) = key.
Proof.
  intros H. unfold JS.normalize_key. change JS.blocksize with 64%nat.
  destruct (Nat.ltb_spec (length key) 64).
  - now apply firstn_app_exact.
  - destruct (Nat.ltb_spec 64 (length key)); [lia |]. apply firstn_all.
Qed.

(** X19: a call of totp (or hotp, or hmac) returns what the function
    without globals returns, and leaves the secret behind it: afterwards the
    global [K_] holds the normalised key, of which a key of at most 64
    code units is a prefix, [outerBytes] holds the whole tag and
    [htop_value] its first 6 elements. *)
Theorem totp_leaves_key_in_globals :
  forall sha1 now key g,
    let after := snd (JSGlobals.totp sha1 now key g) in
    let tag := JS.hmac sha1 key (decimal (JS.TC now)) in
    fst (JSGlobals.totp sha1 now key g) = JS.totp sha1 now key /\
    JSGlobals.K_ after = Some (JS.normalize_key key) /\
    JSGlobals.outerBytes after = Some tag /\
    JSGlobals.htop_value after = Some (JS.slice0 tag JS.codeLen) /\
    ((length key <= 64)%nat ->
       exists K, JSGlobals.K_ after = Some K /\ firstn (length key) K = key).
Proof.
  intros sha1 now key g after tag. subst after tag.
  unfold JSGlobals.totp, JSGlobals.hotp, JSGlobals.hmac.
  cbn [fst snd JSGlobals.K_ JSGlobals.outerBytes JSGlobals.htop_value].
  repeat split.
  intros H. eexists. split; [reflexivity |].
  now apply normalize_key_prefix.
Qed.

Lemma totp_leaves_key_in_globals_witness :
  exists K,
    JSGlobals.K_ (snd (JSGlobals.totp JS.sha1_ref 1700000000000 [107; 101; 121]
       {| JSGlobals.K_ := None; JSGlobals.outerBytes := None;
          JSGlobals.htop_value := None |})) = Some K /\
    firstn 3 K = [107; 101; 121].
Proof.
  apply (totp_leaves_key_in_globals JS.sha1_ref 1700000000000
           [107; 101; 121]
           {| JSGlobals.K_ := None; JSGlobals.outerBytes := None;
              JSGlobals.htop_value := None |}).
  cbn. lia.
Defined.
